(** * Guess the Animal: a shallow embedding of [animal.py]

    The program keeps a binary tree of Python dictionaries: question nodes
    [{"Q": .., "Y": .., "N": ..}] and guess nodes [{"A": ..}].  The
    dictionaries are shared, mutable objects, so the embedding keeps an
    object store and refers to nodes by location.  Input, output and the
    store are threaded through a small state-and-exception monad; as in
    Python, an exception does not roll the store back.

    Text is modelled as [string] over [ascii].  The case and white-space
    functions below are Python's on ASCII text, the characters with codes 0
    to 127.  Outside ASCII they are not Python's ([str.strip] also removes
    U+00A0, [str.lower] and [str.capitalize] follow the Unicode tables), so
    every theorem about what these functions make of a line assumes that
    the line is ASCII ([Str.is_ascii]).

    The interpreter's limit on the depth of recursion is not part of the
    model either: the walkers recurse on fuel, which is proved to suffice.
    The theorems that say how a whole round or the whole script ends bound
    the height of the tree or the length of the input, which keeps the
    real chain of calls (two for each question on the path, and a few
    around them) well below the default limit of 1000 frames. *)

From Stdlib Require Import Ascii NArith ZArith Lia.
From stdpp Require Import base list relations strings.

(** ** Python string primitives *)

Module Str.

Definition code (c : ascii) : N := N_of_ascii c.

(** The text is ASCII: every character has a code below 128. *)
Fixpoint is_ascii (s : string) : bool :=
  match s with
  | EmptyString => true
  | String c s' => (code c <? 128)%N && is_ascii s'
  end.

Definition is_upper (c : ascii) : bool := (65 <=? code c)%N && (code c <=? 90)%N.
Definition is_lower (c : ascii) : bool := (97 <=? code c)%N && (code c <=? 122)%N.

(** [str.isspace] on ASCII: tab, LF, VT, FF, CR, the four separators
    FS/GS/RS/US and the blank. *)
Definition is_space (c : ascii) : bool :=
  ((9 <=? code c)%N && (code c <=? 13)%N)
  || ((28 <=? code c)%N && (code c <=? 32)%N).

Definition lower_char (c : ascii) : ascii :=
  if is_upper c then ascii_of_N (code c + 32) else c.
Definition upper_char (c : ascii) : ascii :=
  if is_lower c then ascii_of_N (code c - 32) else c.

(** [s.lower()] *)
Fixpoint lower (s : string) : string :=
  match s with
  | EmptyString => EmptyString
  | String c s' => String (lower_char c) (lower s')
  end.

(** [s.capitalize()]: first character upper-cased, the rest lower-cased. *)
Definition capitalize (s : string) : string :=
  match s with
  | EmptyString => EmptyString
  | String c s' => String (upper_char c) (lower s')
  end.

Fixpoint lstrip (s : string) : string :=
  match s with
  | EmptyString => EmptyString
  | String c s' => if is_space c then lstrip s' else s
  end.

Fixpoint rstrip (s : string) : string :=
  match s with
  | EmptyString => EmptyString
  | String c s' =>
      match rstrip s' with
      | EmptyString => if is_space c then EmptyString else String c EmptyString
      | r => String c r
      end
  end.

(** [s.strip()] *)
Definition strip (s : string) : string := rstrip (lstrip s).

(** [s[-1]] when [s] is not empty. *)
Fixpoint last (s : string) : option ascii :=
  match s with
  | EmptyString => None
  | String c EmptyString => Some c
  | String _ s' => last s'
  end.

(** [s * n] for an [int] [n]: the empty string when [n <= 0]. *)
Fixpoint repeat (s : string) (n : nat) : string :=
  match n with
  | O => EmptyString
  | S n' => s +:+ repeat s n'
  end.
Definition mul (s : string) (n : Z) : string := repeat s (Z.to_nat n).



(** The characters after the first one, [s[1:]]. *)
Definition tail (s : string) : string :=
  match s with EmptyString => EmptyString | String _ s' => s' end.


End Str.

(** ** Exceptions, outcomes and the object store *)

Inductive exn : Type := IndexError | KeyError | AttributeError.

(** A call returns or raises.  [OutOfFuel] stands for a recursion that has
    not finished within the fuel given to the model; [Dangling] for a
    reference to an object that does not exist, which no Python state
    contains. *)
Inductive failure : Type :=
  | Raise (e : exn)
  | OutOfFuel
  | Dangling.

Inductive outcome (A : Type) : Type :=
  | Ok (a : A)
  | Fail (f : failure).
Arguments Ok {A} a.
Arguments Fail {A} f.

(** Objects are named by their position in the store. *)
Abbreviation loc := nat.

(** A slot of a question node holds a node or Python's [None]. *)
Inductive node : Type :=
  | QNode (Q : string) (Y N : option loc)
  | GNode (A : string).

Record world : Type := World {
  stdin : list string;   (* what successive [readline()] calls return *)
  stdout : list string;  (* the lines printed so far, oldest first *)
  heap : list node       (* the dictionaries, by location *)
}.

Definition M (A : Type) : Type := world -> world * outcome A.

Definition ret {A} (a : A) : M A := fun w => (w, Ok a).

Definition bind {A B} (m : M A) (k : A -> M B) : M B :=
  fun w =>
    match m w with
    | (w', Ok a) => k a w'
    | (w', Fail f) => (w', Fail f)
    end.

Definition raise {A} (e : exn) : M A := fun w => (w, Fail (Raise e)).

Definition lift {A} (o : outcome A) : M A := fun w => (w, o).

Notation "x <- m ;; k" := (bind m (fun x => k))
  (at level 90, m at level 89, right associativity).
Notation "m ;;; k" := (bind m (fun _ => k))
  (at level 90, right associativity).

(** [sys.stdin.readline()]: the next line, or [""] at end of input. *)
Definition readline : M string := fun w =>
  (World (tl (stdin w)) (stdout w) (heap w), Ok (hd EmptyString (stdin w))).

(** [print(s)] *)
Definition print (s : string) : M unit := fun w =>
  (World (stdin w) (stdout w ++ [s]) (heap w), Ok tt).

(** A dictionary display [{...}] creates a new object. *)
Definition alloc (n : node) : M loc := fun w =>
  (World (stdin w) (stdout w) (heap w ++ [n]), Ok (length (heap w))).

Definition load (l : loc) : M node := fun w =>
  match heap w !! l with
  | Some n => (w, Ok n)
  | None => (w, Fail Dangling)
  end.

Definition store (l : loc) (n : node) : M unit := fun w =>
  (World (stdin w) (stdout w) (<[l := n]> (heap w)), Ok tt).

(** [d['Q']], [d['A']], [d['Y']], [d['N']]: a missing key raises. *)
Definition getitem_Q (l : loc) : M string :=
  n <- load l ;;
  match n with QNode q _ _ => ret q | GNode _ => raise KeyError end.

Definition getitem_A (l : loc) : M string :=
  n <- load l ;;
  match n with GNode a => ret a | QNode _ _ _ => raise KeyError end.

Definition getitem_Y (l : loc) : M (option loc) :=
  n <- load l ;;
  match n with QNode _ y _ => ret y | GNode _ => raise KeyError end.

Definition getitem_N (l : loc) : M (option loc) :=
  n <- load l ;;
  match n with QNode _ _ n' => ret n' | GNode _ => raise KeyError end.

(** [d['Y'] = v] and [d['N'] = v].  On a guess dictionary the assignment
    would add a key that no code path reads (the slots are read only from
    dictionaries with a true ['Q']), so the node is kept as it is. *)
Definition setitem_Y (l : loc) (v : option loc) : M unit :=
  n <- load l ;;
  match n with QNode q _ n' => store l (QNode q v n') | GNode _ => ret tt end.

Definition setitem_N (l : loc) (v : option loc) : M unit :=
  n <- load l ;;
  match n with QNode q y _ => store l (QNode q y v) | GNode _ => ret tt end.

(** [node.get('Q')] used as a condition: true for a question dictionary
    whose question is not the empty string. *)
Definition get_Q_truthy (l : loc) : M bool :=
  n <- load l ;;
  match n with
  | QNode EmptyString _ _ => ret false
  | QNode _ _ _ => ret true
  | GNode _ => ret false
  end.

(** ** The program *)

(** The module-level dictionaries, in the order they are created. *)
Definition g_node_fish : loc := 0.
Definition g_node_bird : loc := 1.
Definition q_node_root : loc := 2.

Definition initial_heap : list node :=
  [ GNode "a fish"; GNode "a bird";
    QNode "Does it swim?" (Some g_node_fish) (Some g_node_bird) ].

Definition initial_world (input : list string) : world :=
  World input [] initial_heap.

Definition get_one_word_answer : M string :=
  l <- readline ;; ret (Str.lower (Str.strip l)).

(** [answer_str[0] == 'y']: indexing the empty string raises. *)
Definition is_answer_affirmative (answer_str : string) : outcome bool :=
  match answer_str with
  | EmptyString => Fail (Raise IndexError)
  | String c _ => Ok (Ascii.eqb c "y")
  end.

Definition is_answer_tree (answer_str : string) : outcome bool :=
  match answer_str with
  | EmptyString => Fail (Raise IndexError)
  | String c _ => Ok (Ascii.eqb c "t")
  end.

(** [is_answer_affirmative(get_one_word_answer())], the expression the
    program evaluates at every yes/no prompt. *)
Definition affirmative_answer : M bool :=
  a <- get_one_word_answer ;; lift (is_answer_affirmative a).

Definition get_answer : M string :=
  l <- readline ;; ret (Str.strip l).

Definition get_animal : M string :=
  a <- get_answer ;; ret (Str.lower a).

(** The part of [get_question] after the line has been read. *)
Definition question_of (answer : string) : outcome string :=
  let q_str := Str.capitalize (Str.lower answer) in
  match Str.last q_str with
  | None => Fail (Raise IndexError)
  | Some c => if Ascii.eqb c "?" then Ok q_str else Ok (q_str +:+ "?")
  end.

Definition get_question : M string :=
  a <- get_answer ;; lift (question_of a).

Definition get_q_answer (new_a_str : string) : M bool :=
  print ("For " +:+ new_a_str +:+ ", what is the answer?") ;;;
  affirmative_answer.

Definition make_g_node : M loc :=
  print "What animal were you thinking of? " ;;;
  a <- get_animal ;;
  alloc (GNode a).

Definition make_q_node_with_q_only (correct_a_str incorrect_a_str : string)
  : M loc :=
  print ("Please type a yes-or-no question that would distinguish "
         +:+ correct_a_str +:+ " from " +:+ incorrect_a_str +:+ ":") ;;;
  q <- get_question ;;
  alloc (QNode q None None).

Definition attach_g_nodes (new_q_node incorrect_g_node correct_g_node : loc)
  : M unit :=
  a <- getitem_A correct_g_node ;;
  b <- get_q_answer a ;;
  if b then
    setitem_Y new_q_node (Some correct_g_node) ;;;
    setitem_N new_q_node (Some incorrect_g_node)
  else
    setitem_Y new_q_node (Some incorrect_g_node) ;;;
    setitem_N new_q_node (Some correct_g_node).

Definition make_new_q_node (q_node g_node : loc) : M loc :=
  new_g_node <- make_g_node ;;
  correct_a <- getitem_A new_g_node ;;
  incorrect_a <- getitem_A g_node ;;
  new_q_node <- make_q_node_with_q_only correct_a incorrect_a ;;
  attach_g_nodes new_q_node g_node new_g_node ;;;
  ret new_q_node.

Definition insert_new_yes_branch_q_node (q_node g_node : loc) : M unit :=
  new_q_node <- make_new_q_node q_node g_node ;;
  setitem_Y q_node (Some new_q_node).

Definition insert_new_no_branch_q_node (q_node g_node : loc) : M unit :=
  new_q_node <- make_new_q_node q_node g_node ;;
  setitem_N q_node (Some new_q_node).

Definition play_g_node (q_node g_node : loc) (followed_yes_path : bool)
  : M unit :=
  a <- getitem_A g_node ;;
  print ("Is it " +:+ a +:+ "?") ;;;
  b <- affirmative_answer ;;
  if b then print "Great! Try another animal!"
  else if followed_yes_path then insert_new_yes_branch_q_node q_node g_node
  else insert_new_no_branch_q_node q_node g_node.

(** The mutual recursion of [play_q_node] and [play_node], on fuel.  A
    slot that holds [None] has no [get] method. *)
Fixpoint play_q_node (fuel : nat) (q_node : loc) : M unit :=
  match fuel with
  | O => lift (Fail OutOfFuel)
  | S fuel' =>
      q <- getitem_Q q_node ;;
      print q ;;;
      b <- affirmative_answer ;;
      if b then
        y <- getitem_Y q_node ;; play_node fuel' q_node y true
      else
        n <- getitem_N q_node ;; play_node fuel' q_node n false
  end
with play_node (fuel : nat) (q_node : loc) (node : option loc)
               (followed_yes_path : bool) : M unit :=
  match fuel with
  | O => lift (Fail OutOfFuel)
  | S fuel' =>
      match node with
      | None => raise AttributeError
      | Some l =>
          t <- get_Q_truthy l ;;
          if t then play_q_node fuel' l
          else play_g_node q_node l followed_yes_path
      end
  end.

(** Every [play_q_node] reads a line before it recurses and indexing the
    answer raises at the end of the input, so the recursion is bounded by
    the input that is left. *)
Definition play_fuel (w : world) : nat := 2 * length (stdin w) + 1.

Definition play_game (root_q_node : loc) : M unit :=
  fun w => play_q_node (play_fuel w) root_q_node w.

Definition get_indent_str (level : Z) : string :=
  Str.mul (Str.mul " " level) 3.

Fixpoint print_game_tree (fuel : nat) (node : option loc) (level : Z)
  : M unit :=
  match fuel with
  | O => lift (Fail OutOfFuel)
  | S fuel' =>
      match node with
      | None => raise AttributeError
      | Some l =>
          t <- get_Q_truthy l ;;
          if t then
            q <- getitem_Q l ;;
            print (get_indent_str level +:+ "Question: " +:+ q +:+ " -> yes:") ;;;
            y <- getitem_Y l ;;
            print_game_tree fuel' y (level + 1) ;;;
            q' <- getitem_Q l ;;
            print (get_indent_str level +:+ "Question: " +:+ q' +:+ " -> no:") ;;;
            n <- getitem_N l ;;
            print_game_tree fuel' n (level + 1)
          else
            a <- getitem_A l ;;
            print (get_indent_str level +:+ "Guess: " +:+ a)
      end
  end.

(** ** Rounds, reachability in the store *)

(** The shell plays one round after another on the one root dictionary;
    between rounds it reads and prints lines of its own, so each round
    meets some input of its own.  An exception ends the process. *)
Fixpoint session (rounds : list (list string)) (w : world) : world :=
  match rounds with
  | [] => w
  | input :: rounds' =>
      match play_game q_node_root (World input (stdout w) (heap w)) with
      | (w', Ok _) => session rounds' w'
      | (w', Fail _) => w'
      end
  end.

(** [c] is held by a slot of the question dictionary at [p]. *)
Definition child (h : list node) (p c : loc) : Prop :=
  exists q y n, h !! p = Some (QNode q y n) /\ (y = Some c \/ n = Some c).

Definition reach (h : list node) : loc -> loc -> Prop := rtc (child h).

(** [g] is a guess dictionary for [a] in the tree under [root]. *)
Definition leaf (h : list node) (root g : loc) (a : string) : Prop :=
  reach h root g /\ h !! g = Some (GNode a).

Definition node_ok (h : list node) (nd : node) : Prop :=
  match nd with
  | GNode _ => True
  | QNode q y n =>
      q <> EmptyString
      /\ (exists cy, y = Some cy /\ cy < length h)
      /\ (exists cn, n = Some cn /\ cn < length h)
  end.

(** Every dictionary in the tree under [root] exists, and every question
    dictionary there has a question and both slots set. *)
Definition tree_ok (h : list node) (root : loc) : Prop :=
  forall l, reach h root l -> exists nd, h !! l = Some nd /\ node_ok h nd.

(** The store after a completed growth event, as one pure update: the new
    guess dictionary and the new question dictionary are appended, the new
    question holds the new guess on the side the user named and the old
    guess [g] on the other, and the slot of the parent [p] that led to [g]
    now holds the new question. *)
Definition grow (h : list node) (p : loc) (followed_yes_path : bool)
    (g : loc) (a q : string) (new_on_yes : bool) : list node :=
  let new_g := length h in
  let new_q := S (length h) in
  let h' :=
    h ++ [ GNode a;
           QNode q (Some (if new_on_yes then new_g else g))
                   (Some (if new_on_yes then g else new_g)) ] in
  match h !! p with
  | Some (QNode pq y n) =>
      <[p := if followed_yes_path then QNode pq (Some new_q) n
             else QNode pq y (Some new_q)]> h'
  | _ => h'
  end.

(** [h'] is [h] after one growth event below [start]: a guess dictionary
    [g] held by a slot of a question dictionary [p] of the tree has been
    replaced, in that slot, by a new question over [g] and a new guess. *)
Definition grown (h : list node) (start : loc) (h' : list node) : Prop :=
  exists p pq y n (b : bool) g old a q (nb : bool),
    reach h start p
    /\ h !! p = Some (QNode pq y n)
    /\ (if b then y else n) = Some g
    /\ h !! g = Some (GNode old)
    /\ q <> EmptyString
    /\ h' = grow h p b g a q nb.

(** What a round started at [start] on the store [h] may end with: the
    store as it was or grown once when the round returns; when it fails,
    the dictionaries of [h] as they were, with at most new ones after
    them.  [enough] says that the fuel covers the input. *)
Definition round_post (enough : Prop) (h : list node) (start : loc)
    (res : world * outcome unit) : Prop :=
  match res with
  | (w', Ok _) => heap w' = h \/ grown h start (heap w')
  | (w', Fail f) =>
      (enough -> f <> OutOfFuel) /\ exists ext, heap w' = h ++ ext
  end.

(** ** The shell: banner and main loop *)

(** The double quote character, for the banner lines that contain it. *)
Definition dq : string := String "034"%char EmptyString.

(** The lines printed before the loop starts. *)
Definition banner : M unit :=
  print "" ;;;
  print ("Play " +:+ dq +:+ "Guess the Animal." +:+ dq
         +:+ " Think of an animal and the computer will") ;;;
  print "attempt to guess it. The game gets smarter over time as you teach it" ;;;
  print "about more animals! This program by Paul R. Potts is based on the" ;;;
  print "original BASIC game as it appears in the book Basic Computer Games:" ;;;
  print "TRS-80 Edition, edited by David H. Ahl." ;;;
  print "" ;;;
  print "If you would like to see the internal tree of questions and animal" ;;;
  print ("names, type " +:+ dq +:+ "tree" +:+ dq +:+ " instead of " +:+ dq
         +:+ "yes" +:+ dq +:+ " or " +:+ dq +:+ "no" +:+ dq
         +:+ " when the program asks") ;;;
  print (dq +:+ "Are you thinking of an animal?" +:+ dq).

(** [print_game_tree(q_node_root, 1)] as the loop calls it.  The recursion
    follows the tree, and a tree in a store has no more levels than the
    store has dictionaries, which is the fuel given here. *)
Definition print_root_tree : M unit :=
  fun w => print_game_tree (length (heap w)) (Some q_node_root) 1 w.

(** The [while True] loop, on fuel: one unit for each turn.  The [elif]
    is evaluated only when the answer is not affirmative. *)
Fixpoint main_loop (fuel : nat) : M unit :=
  match fuel with
  | O => lift (Fail OutOfFuel)
  | S fuel' =>
      print "" ;;;
      print "Are you thinking of an animal?" ;;;
      answer_str <- get_one_word_answer ;;
      b <- lift (is_answer_affirmative answer_str) ;;
      if b then
        play_game q_node_root ;;; main_loop fuel'
      else
        t <- lift (is_answer_tree answer_str) ;;
        if t then
          print "Game tree:" ;;;
          print_root_tree ;;;
          main_loop fuel'
        else
          print "Goodbye for now!"
  end.

(** The whole script.  Every turn of the loop reads a line and indexing
    the answer raises at the end of the input, so the loop takes at most
    one turn more than there are lines.  (The interpreter's limit on the
    depth of recursion is not modelled.) *)
Definition main : M unit :=
  banner ;;; (fun w => main_loop (S (length (stdin w))) w).

(** ** Trees held by a store *)

Inductive tree : Type :=
  | Guess (a : string)
  | Question (q : string) (yes no : tree).

(** The dictionaries under [l] form the finite tree [t]: guess
    dictionaries at the leaves, and question dictionaries with a question
    that is not empty and both slots set everywhere else. *)
Inductive represents (h : list node) : loc -> tree -> Prop :=
  | represents_guess l a :
      h !! l = Some (GNode a) -> represents h l (Guess a)
  | represents_question l q y n ty tn :
      h !! l = Some (QNode q (Some y) (Some n)) ->
      q <> EmptyString ->
      represents h y ty -> represents h n tn ->
      represents h l (Question q ty tn).

(** Number of levels of a tree. *)
Fixpoint height (t : tree) : nat :=
  match t with
  | Guess _ => 1
  | Question _ ty tn => S (Nat.max (height ty) (height tn))
  end.

Fixpoint questions (t : tree) : nat :=
  match t with
  | Guess _ => 0
  | Question _ ty tn => S (questions ty + questions tn)
  end.

Fixpoint guesses (t : tree) : list string :=
  match t with
  | Guess a => [a]
  | Question _ ty tn => guesses ty ++ guesses tn
  end.

(** The lines of the pre-order trace of a tree, the question repeated
    before either branch. *)
Fixpoint trace (t : tree) (level : Z) : list string :=
  match t with
  | Guess a => [get_indent_str level +:+ "Guess: " +:+ a]
  | Question q ty tn =>
      (get_indent_str level +:+ "Question: " +:+ q +:+ " -> yes:")
      :: trace ty (level + 1)
      ++ (get_indent_str level +:+ "Question: " +:+ q +:+ " -> no:")
      :: trace tn (level + 1)
  end.

(** On the store [h] the action [m] only prints: it leaves the input and
    the store alone, and what it prints and how it ends do not depend on
    the input or on what was printed before. *)
Definition only_prints {A} (m : M A) (h : list node) : Prop :=
  exists lines r, forall i o,
    m (World i o h) = (World i (o ++ lines) h, r).

(** What the shell relies on between rounds: the root dictionary asks
    "Does it swim?", the store under it is a finite tree, and the tree has
    no more levels than the store has dictionaries. *)
Definition shell_inv (h : list node) : Prop :=
  exists ty tn,
    represents h q_node_root (Question "Does it swim?" ty tn)
    /\ height (Question "Does it swim?" ty tn) <= length h.

(** A run that started with the input [i] has read lines from its front
    and, when it failed, failed on an empty answer (or ran out of fuel). *)
Definition round_safe {A} (i : list string) (res : world * outcome A) : Prop :=
  stdin res.1 `suffix_of` i
  /\ forall f, res.2 = Fail f -> f = OutOfFuel \/ f = Raise IndexError.




(** The store [h] holds under the root a finite tree that starts with
    "Does it swim?" and has at most [k] levels. *)
Definition tree_within (k : nat) (h : list node) : Prop :=
  exists ty tn,
    represents h q_node_root (Question "Does it swim?" ty tn)
    /\ height (Question "Does it swim?" ty tn) <= k.

(** ** Facts about the string primitives *)

Section StringFacts.

Local Ltac by_cases_on c :=
  destruct c as [[] [] [] [] [] [] [] []]; vm_compute; reflexivity.


Lemma lower_char_idem c : Str.lower_char (Str.lower_char c) = Str.lower_char c.
Proof. by_cases_on c. Qed.




Lemma lower_char_space c :
  Str.is_space (Str.lower_char c) = Str.is_space c.
Proof. by_cases_on c. Qed.

Lemma lower_idem s : Str.lower (Str.lower s) = Str.lower s.
Proof. induction s as [|c s IH]; simpl; [done|]. by rewrite lower_char_idem, IH. Qed.











Lemma append_last s : Str.last (s +:+ "?") = Some "?"%char.
Proof.
  induction s as [|c s IH]; simpl; [done|].
  destruct (s +:+ "?") eqn:E; [by destruct s|done].
Qed.



Lemma lower_char_is_y c :
  Ascii.eqb (Str.lower_char c) "y" = Ascii.eqb c "y" || Ascii.eqb c "Y".
Proof. by_cases_on c. Qed.

Lemma lstrip_head l c s : Str.lstrip l = String c s -> Str.is_space c = false.
Proof.
  induction l as [|c' l IH]; [done|]. cbn [Str.lstrip].
  destruct (Str.is_space c') eqn:E; [done|]. by intros [= <- <-].
Qed.

Lemma rstrip_head c s :
  Str.is_space c = false -> exists s', Str.rstrip (String c s) = String c s'.
Proof.
  intros Hc. cbn [Str.rstrip]. destruct (Str.rstrip s); [|by eauto].
  rewrite Hc. by eauto.
Qed.





End StringFacts.

(** ** Reading answers and questions *)


Lemma affirmative_answer_run (l : string) (rest out : list string)
    (h : list node) :
  affirmative_answer (World (l :: rest) out h)
  = (World rest out h, is_answer_affirmative (Str.lower (Str.strip l))).
Proof. reflexivity. Qed.





Lemma get_question_run l rest out h :
  get_question (World (l :: rest) out h)
  = (World rest out h, question_of (Str.strip l)).
Proof. reflexivity. Qed.






(** The two boundary cases of the specification. *)
Lemma get_question_examples :
  get_question (World ["does it have stripes"] [] initial_heap)
  = (World [] [] initial_heap, Ok "Does it have stripes?")
  /\ get_question (World ["Does it fly?"] [] initial_heap)
     = (World [] [] initial_heap, Ok "Does it fly?").
Proof. split; reflexivity. Qed.





Lemma get_question_loses_acronym :
  get_question (World ["Is it from the USA"] [] initial_heap)
  = (World [] [] initial_heap, Ok "Is it from the usa?").
Proof. reflexivity. Qed.

(** ** Two rounds on the seed tree, run as written *)

Lemma append_assoc (s t u : string) : s +:+ t +:+ u = (s +:+ t) +:+ u.
Proof.
  induction s as [|c s IH]; [done|].
  change (String c (s +:+ t +:+ u) = String c ((s +:+ t) +:+ u)).
  by rewrite IH.
Qed.

Lemma repeat_add s a b :
  Str.repeat s (a + b) = Str.repeat s a +:+ Str.repeat s b.
Proof.
  induction a as [|a IH]; [done|].
  change (s +:+ Str.repeat s (a + b) = (s +:+ Str.repeat s a) +:+ Str.repeat s b).
  by rewrite IH, append_assoc.
Qed.

Lemma get_indent_str_spaces (n : nat) :
  get_indent_str (Z.of_nat n) = Str.repeat " " (3 * n).
Proof.
  unfold get_indent_str, Str.mul. rewrite Nat2Z.id.
  change (Z.to_nat 3) with 3.
  replace (3 * n) with (n + (n + (n + 0))) by lia.
  rewrite !repeat_add. reflexivity.
Qed.

(** C8: on the seed tree the trace at depth 1 prints exactly the four
    lines of the specification, the question before each branch; the
    indentation of a line at depth [n] is [3 * n] blanks. *)
Theorem print_game_tree_seed (fuel : nat) (input out : list string) :
  print_game_tree (S (S fuel)) (Some q_node_root) 1
    (World input out initial_heap)
  = (World input
       (out ++ [ "   Question: Does it swim? -> yes:";
                 "      Guess: a fish";
                 "   Question: Does it swim? -> no:";
                 "      Guess: a bird" ])
       initial_heap, Ok tt)
  /\ forall n : nat, get_indent_str (Z.of_nat n) = Str.repeat " " (3 * n).
Proof.
  split; [|apply get_indent_str_spaces].
  cbv -[app]. by rewrite <- !app_assoc.
Qed.

(** C9: on the seed tree a round answered yes, yes prints the root
    question, "Is it a fish?" and the success line, and leaves the store
    as it was: no dictionary is created and no slot is assigned. *)
Theorem play_game_straight_through (rest out : list string) :
  play_game q_node_root (World ("yes" :: "yes" :: rest) out initial_heap)
  = (World rest
       (out ++ [ "Does it swim?"; "Is it a fish?";
                 "Great! Try another animal!" ])
       initial_heap, Ok tt).
Proof.
  unfold play_game, play_fuel. cbn [stdin length].
  replace (2 * S (S (length rest)) + 1) with (S (S (2 * length rest + 3))) by lia.
  cbv -[app Nat.add Nat.mul]. by rewrite <- !app_assoc.
Qed.

(** ** Running the monad *)

Section Run.

Context {A B : Type}.
Implicit Types (w : world) (k : A -> M B).

Lemma run_bind_assoc {C} (m : M C) (k0 : C -> M A) k w :
  bind (bind m k0) k w = bind m (fun c => bind (k0 c) k) w.
Proof. unfold bind. by destruct (m w) as [w' [c|f]]. Qed.

Lemma run_ret (a : A) k w : bind (ret a) k w = k a w.
Proof. reflexivity. Qed.

Lemma run_lift (o : outcome A) k w :
  bind (lift o) k w = match o with Ok a => k a w | Fail f => (w, Fail f) end.
Proof. reflexivity. Qed.

Lemma bind_run (m : M A) k w w' a :
  m w = (w', Ok a) -> bind m k w = k a w'.
Proof. unfold bind. by intros ->. Qed.

Lemma bind_fail (m : M A) k w w' f :
  m w = (w', Fail f) -> bind m k w = (w', Fail f).
Proof. unfold bind. by intros ->. Qed.

End Run.

Lemma run_readline {B} (k : string -> M B) w :
  bind readline k w
  = k (hd "" (stdin w)) (World (tl (stdin w)) (stdout w) (heap w)).
Proof. reflexivity. Qed.

Lemma run_print {B} s (k : unit -> M B) w :
  bind (print s) k w = k tt (World (stdin w) (stdout w ++ [s]) (heap w)).
Proof. reflexivity. Qed.

Lemma run_alloc {B} nd (k : loc -> M B) w :
  bind (alloc nd) k w
  = k (length (heap w)) (World (stdin w) (stdout w) (heap w ++ [nd])).
Proof. reflexivity. Qed.

Lemma getitem_A_run l a w :
  heap w !! l = Some (GNode a) -> getitem_A l w = (w, Ok a).
Proof. unfold getitem_A, bind, load. by intros ->. Qed.

Lemma getitem_Q_run l q y n w :
  heap w !! l = Some (QNode q y n) -> getitem_Q l w = (w, Ok q).
Proof. unfold getitem_Q, bind, load. by intros ->. Qed.

Lemma getitem_Y_run l q y n w :
  heap w !! l = Some (QNode q y n) -> getitem_Y l w = (w, Ok y).
Proof. unfold getitem_Y, bind, load. by intros ->. Qed.

Lemma getitem_N_run l q y n w :
  heap w !! l = Some (QNode q y n) -> getitem_N l w = (w, Ok n).
Proof. unfold getitem_N, bind, load. by intros ->. Qed.

Lemma setitem_Y_run l q y n v w :
  heap w !! l = Some (QNode q y n) ->
  setitem_Y l v w
  = (World (stdin w) (stdout w) (<[l := QNode q v n]> (heap w)), Ok tt).
Proof. unfold setitem_Y, bind, load. by intros ->. Qed.

Lemma setitem_N_run l q y n v w :
  heap w !! l = Some (QNode q y n) ->
  setitem_N l v w
  = (World (stdin w) (stdout w) (<[l := QNode q y v]> (heap w)), Ok tt).
Proof. unfold setitem_N, bind, load. by intros ->. Qed.

(** One step of symbolic execution for the actions that need no fact
    about the store. *)
Ltac run :=
  repeat (first [ rewrite run_bind_assoc | rewrite run_ret
                | rewrite run_print | rewrite run_readline
                | rewrite run_alloc | rewrite run_lift ];
          cbn [stdin stdout heap]).

(** ** The growth event *)

Section Growth.

Implicit Types (h : list node) (p g : loc) (w : world).

Lemma lookup_snoc h (x : node) : (h ++ [x]) !! length h = Some x.
Proof. by apply list_lookup_middle. Qed.

Lemma lookup_snoc_old h (x nd : node) l :
  h !! l = Some nd -> (h ++ [x]) !! l = Some nd.
Proof. apply lookup_app_l_Some. Qed.

Lemma insert_snoc h (x y : node) : <[length h := y]> (h ++ [x]) = h ++ [y].
Proof. by rewrite insert_app_r_alt, Nat.sub_diag. Qed.

(** What [make_new_q_node] does, by the three lines it reads. *)
Lemma make_new_q_node_run p g old w :
  heap w !! g = Some (GNode old) ->
  let h := heap w in
  let l1 := hd "" (stdin w) in
  let l2 := hd "" (tl (stdin w)) in
  let l3 := hd "" (tl (tl (stdin w))) in
  let a := Str.lower (Str.strip l1) in
  let out1 :=
    (stdout w ++ ["What animal were you thinking of? "])
    ++ ["Please type a yes-or-no question that would distinguish "
        +:+ a +:+ " from " +:+ old +:+ ":"] in
  let out2 := out1 ++ ["For " +:+ a +:+ ", what is the answer?"] in
  make_new_q_node p g w =
  match question_of (Str.strip l2) with
  | Fail f => (World (tl (tl (stdin w))) out1 (h ++ [GNode a]), Fail f)
  | Ok q =>
      match is_answer_affirmative (Str.lower (Str.strip l3)) with
      | Fail f =>
          (World (tl (tl (tl (stdin w)))) out2
             ((h ++ [GNode a]) ++ [QNode q None None]), Fail f)
      | Ok nb =>
          (World (tl (tl (tl (stdin w)))) out2
             ((h ++ [GNode a])
              ++ [QNode q (Some (if nb then length h else g))
                          (Some (if nb then g else length h))]),
           Ok (length (h ++ [GNode a])))
      end
  end.
Proof.
  intros Hg. destruct w as [inp out h]. cbn [heap stdin stdout] in *.
  unfold make_new_q_node, make_g_node, make_q_node_with_q_only,
    attach_g_nodes, get_q_answer, affirmative_answer, get_one_word_answer,
    get_question, get_animal, get_answer.
  run.
  erewrite bind_run by (apply getitem_A_run, lookup_snoc).
  erewrite bind_run by (by apply getitem_A_run, lookup_snoc_old).
  run. destruct (question_of _) as [q|f]; [|done].
  run.
  erewrite bind_run by (by apply getitem_A_run, lookup_snoc_old, lookup_snoc).
  run.
  destruct (is_answer_affirmative _) as [[]|f]; [| |done].
  all: run.
  all: erewrite bind_run by (eapply setitem_Y_run, lookup_snoc).
  all: cbn [stdin stdout heap]; rewrite insert_snoc.
  all: erewrite bind_run by (eapply setitem_N_run, lookup_snoc).
  all: cbn [stdin stdout heap]; by rewrite insert_snoc.
Qed.

Lemma grow_unfold h p (b : bool) g a q (nb : bool) pq y n :
  h !! p = Some (QNode pq y n) ->
  <[p := if b then QNode pq (Some (length (h ++ [GNode a]))) n
         else QNode pq y (Some (length (h ++ [GNode a])))]>
    ((h ++ [GNode a])
     ++ [QNode q (Some (if nb then length h else g))
                 (Some (if nb then g else length h))])
  = grow h p b g a q nb.
Proof.
  intros Hp. unfold grow. rewrite Hp, <- app_assoc, length_app, Nat.add_1_r.
  reflexivity.
Qed.

(** What [play_g_node] does, by the four lines it reads. *)
Lemma play_g_node_run p g b old pq y n w :
  heap w !! g = Some (GNode old) ->
  heap w !! p = Some (QNode pq y n) ->
  let h := heap w in
  let l0 := hd "" (stdin w) in
  let l1 := hd "" (tl (stdin w)) in
  let l2 := hd "" (tl (tl (stdin w))) in
  let l3 := hd "" (tl (tl (tl (stdin w)))) in
  let a := Str.lower (Str.strip l1) in
  let out0 := stdout w ++ ["Is it " +:+ old +:+ "?"] in
  let out1 :=
    (out0 ++ ["What animal were you thinking of? "])
    ++ ["Please type a yes-or-no question that would distinguish "
        +:+ a +:+ " from " +:+ old +:+ ":"] in
  let out2 := out1 ++ ["For " +:+ a +:+ ", what is the answer?"] in
  play_g_node p g b w =
  match is_answer_affirmative (Str.lower (Str.strip l0)) with
  | Fail f => (World (tl (stdin w)) out0 h, Fail f)
  | Ok true =>
      (World (tl (stdin w)) (out0 ++ ["Great! Try another animal!"]) h, Ok tt)
  | Ok false =>
      match question_of (Str.strip l2) with
      | Fail f =>
          (World (tl (tl (tl (stdin w)))) out1 (h ++ [GNode a]), Fail f)
      | Ok q =>
          match is_answer_affirmative (Str.lower (Str.strip l3)) with
          | Fail f =>
              (World (tl (tl (tl (tl (stdin w))))) out2
                 ((h ++ [GNode a]) ++ [QNode q None None]), Fail f)
          | Ok nb =>
              (World (tl (tl (tl (tl (stdin w))))) out2
                 (grow h p b g a q nb), Ok tt)
          end
      end
  end.
Proof.
  intros Hg Hp. destruct w as [inp out h]. cbn [heap stdin stdout] in *.
  unfold play_g_node, affirmative_answer, get_one_word_answer.
  erewrite bind_run by (by apply getitem_A_run).
  run. destruct (is_answer_affirmative _) as [[]|f]; [done| |done].
  assert (Hrun := make_new_q_node_run p g old
                    (World (tail inp) (out ++ ["Is it " +:+ old +:+ "?"]) h) Hg).
  cbn [heap stdin stdout] in Hrun. cbv zeta in Hrun.
  destruct b; unfold insert_new_yes_branch_q_node, insert_new_no_branch_q_node,
    bind at 1; rewrite Hrun; clear Hrun.
  all: destruct (question_of _) as [q|f]; [|done].
  all: destruct (is_answer_affirmative _) as [nb|f]; [|done].
  - erewrite setitem_Y_run by (by apply lookup_snoc_old, lookup_snoc_old).
    cbn [heap stdin stdout]. by rewrite (grow_unfold h p true g _ q nb pq y n).
  - erewrite setitem_N_run by (by apply lookup_snoc_old, lookup_snoc_old).
    cbn [heap stdin stdout]. by rewrite (grow_unfold h p false g _ q nb pq y n).
Qed.

End Growth.

(** ** The store after growth *)

Section GrowFacts.

Variables (h : list node) (p g : loc) (b nb : bool) (a q pq : string).
Variables (y n : option loc).
Hypothesis Hp : h !! p = Some (QNode pq y n).

Let h' := grow h p b g a q nb.

Lemma grow_eq :
  h' = <[p := if b then QNode pq (Some (S (length h))) n
              else QNode pq y (Some (S (length h)))]>
         (h ++ [ GNode a;
                 QNode q (Some (if nb then length h else g))
                         (Some (if nb then g else length h)) ]).
Proof. unfold h', grow. by rewrite Hp. Qed.

Lemma parent_lt : p < length h.
Proof. by eapply lookup_lt_Some. Qed.

Lemma grow_length : length h' = S (S (length h)).
Proof. rewrite grow_eq, length_insert, length_app. simpl. lia. Qed.

Lemma grow_lookup_parent :
  h' !! p = Some (if b then QNode pq (Some (S (length h))) n
                  else QNode pq y (Some (S (length h)))).
Proof.
  rewrite grow_eq. apply list_lookup_insert_eq.
  rewrite length_app. pose proof parent_lt. lia.
Qed.

Lemma grow_lookup_old l : l <> p -> l < length h -> h' !! l = h !! l.
Proof.
  intros Hne Hl. rewrite grow_eq, list_lookup_insert_ne by done.
  by apply lookup_app_l.
Qed.

Lemma grow_lookup_new_g : h' !! length h = Some (GNode a).
Proof.
  pose proof parent_lt. rewrite grow_eq, list_lookup_insert_ne by lia.
  by apply list_lookup_middle.
Qed.

Lemma grow_lookup_new_q :
  h' !! S (length h)
  = Some (QNode q (Some (if nb then length h else g))
                  (Some (if nb then g else length h))).
Proof.
  pose proof parent_lt. rewrite grow_eq, list_lookup_insert_ne by lia.
  rewrite lookup_app_r by lia.
  by replace (S (length h) - length h) with 1 by lia.
Qed.

Lemma grow_lookup_beyond l : S (length h) < l -> h' !! l = None.
Proof. intros Hl. apply lookup_ge_None. rewrite grow_length. lia. Qed.

(** A question dictionary keeps its text; a guess dictionary is untouched. *)
Lemma grow_keeps_question l ql yl nl :
  h !! l = Some (QNode ql yl nl) ->
  exists yl' nl', h' !! l = Some (QNode ql yl' nl').
Proof.
  intros Hl. destruct (decide (l = p)) as [-> |Hne].
  - pose proof grow_lookup_parent as H.
    rewrite Hp in Hl. injection Hl as -> -> ->.
    destruct b; eauto.
  - pose proof (grow_lookup_old l Hne) as H.
    rewrite Hl in H. eauto using lookup_lt_Some.
Qed.

Lemma grow_keeps_guess l al : h !! l = Some (GNode al) -> h' !! l = Some (GNode al).
Proof.
  intros Hl. rewrite grow_lookup_old; eauto using lookup_lt_Some.
  intros ->. congruence.
Qed.

Hypothesis Hslot : (if b then y else n) = Some g.
Hypothesis Hg : exists old, h !! g = Some (GNode old).

Lemma grow_child_parent_new_q : child h' p (S (length h)).
Proof.
  pose proof grow_lookup_parent as H. unfold child.
  destruct b; eauto 10.
Qed.

Lemma grow_child_new_q_old : child h' (S (length h)) g.
Proof.
  pose proof grow_lookup_new_q as H. unfold child.
  destruct nb; eauto 10.
Qed.


(** Every edge of the old tree is still there, except the one from the
    parent to the old guess, which now passes through the new question. *)
Lemma grow_child_old l c : child h l c -> reach h' l c.
Proof.
  intros (ql & yl & nl & Hl & Hc).
  destruct (decide (l = p)) as [-> |Hne].
  - rewrite Hp in Hl. injection Hl as <- <- <-.
    assert (Hvia : reach h' p g).
    { eapply rtc_l; [apply grow_child_parent_new_q|].
      apply rtc_once, grow_child_new_q_old. }
    pose proof grow_lookup_parent as H. unfold reach, child in *.
    destruct b; destruct Hc as [->| ->]; try (injection Hslot as ->);
      try exact Hvia; apply rtc_once; eauto 10.
  - apply rtc_once. exists ql, yl, nl.
    rewrite grow_lookup_old; eauto using lookup_lt_Some.
Qed.

Lemma grow_reach root l : reach h root l -> reach h' root l.
Proof.
  induction 1 as [|x z c Hxz _ IH]; [apply rtc_refl|].
  etrans; [by apply grow_child_old|done].
Qed.

(** Conversely, the new tree has nothing but the old tree and the two new
    dictionaries. *)
Lemma grow_reach_inv root l :
  reach h root p -> reach h' root l ->
  reach h root l \/ l = length h \/ l = S (length h).
Proof.
  intros Hrp Hl. revert l Hl.
  apply (rtc_ind_r (fun l => reach h root l \/ l = length h \/ l = S (length h)));
    [left; apply rtc_refl|].
  intros z l Hrz Hzl IH.
  destruct Hzl as (qz & yz & nz & Hz & Hc).
  assert (Hrg : reach h root g).
  { eapply rtc_r; [exact Hrp|]. exists pq, y, n. split; [done|].
    destruct b; auto. }
  destruct (decide (z = p)) as [-> |Hne].
  - pose proof grow_lookup_parent as H. rewrite Hz in H.
    destruct b; simplify_eq; destruct Hc as [Hc|Hc]; simplify_eq; auto;
      left; (eapply rtc_r; [exact Hrp|]); eexists _, _, _; eauto.
  - destruct (lt_eq_lt_dec z (length h)) as [[Hlt| ->]|Hgt].
    + rewrite grow_lookup_old in Hz by done.
      destruct IH as [IH|[->| ->]]; [|lia..].
      left. eapply rtc_r; [exact IH|]. exists qz, yz, nz. auto.
    + rewrite grow_lookup_new_g in Hz. done.
    + destruct (decide (z = S (length h))) as [->|Hne'].
      * rewrite grow_lookup_new_q in Hz. injection Hz as <- <- <-.
        destruct nb; destruct Hc as [[= <-]|[= <-]]; auto.
      * rewrite grow_lookup_beyond in Hz by lia. done.
Qed.

End GrowFacts.

(** ** One round *)

Section Round.

Implicit Types (h : list node) (p g l : loc) (w : world) (b : bool).

Lemma question_of_not_empty raw q : question_of raw = Ok q -> q <> "".
Proof.
  unfold question_of.
  destruct (Str.capitalize (Str.lower raw)) as [|c s]; [done|].
  destruct (Str.last (String c s)); [|done].
  by destruct (Ascii.eqb _ _); intros [= <-].
Qed.

Lemma is_answer_affirmative_fail s f :
  is_answer_affirmative s = Fail f -> f = Raise IndexError.
Proof. destruct s; [by intros [= <-]|done]. Qed.

Lemma question_of_fail raw f :
  question_of raw = Fail f -> f = Raise IndexError.
Proof.
  unfold question_of. destruct (Str.last _); [|by intros [= <-]].
  by destruct (Ascii.eqb _ _).
Qed.

Lemma play_q_node_unfold fuel l :
  play_q_node (S fuel) l
  = (q <- getitem_Q l ;;
     print q ;;;
     b <- affirmative_answer ;;
     if b then y <- getitem_Y l ;; play_node fuel l y true
     else n <- getitem_N l ;; play_node fuel l n false).
Proof. reflexivity. Qed.

Lemma play_node_unfold fuel p node b :
  play_node (S fuel) p node b
  = match node with
    | None => raise AttributeError
    | Some l =>
        t <- get_Q_truthy l ;;
        if t then play_q_node fuel l else play_g_node p l b
    end.
Proof. reflexivity. Qed.

Lemma round_post_same enough h start w f :
  (enough -> f <> OutOfFuel) -> heap w = h ->
  round_post enough h start (w, Fail f).
Proof. intros Hf <-. split; [done|]. exists []. by rewrite app_nil_r. Qed.

Lemma play_g_node_post p g b pq y n w :
  heap w !! p = Some (QNode pq y n) ->
  (if b then y else n) = Some g ->
  round_post True (heap w) p (play_g_node p g b w).
Proof.
  intros Hp Hslot. destruct (heap w !! g) as [[gq gy gn|old]|] eqn:Hg.
  - unfold play_g_node, getitem_A, load. run.
    unfold bind. rewrite Hg. by apply round_post_same.
  - rewrite (play_g_node_run p g b old pq y n) by done. cbv zeta.
    destruct (is_answer_affirmative _) as [[]|f] eqn:E0.
    + by left.
    + destruct (question_of _) as [q|f] eqn:E2.
      * destruct (is_answer_affirmative (Str.lower (Str.strip (hd "" (tl (tl (tl _)))))))
          as [nb|f] eqn:E3.
        -- right. exists p, pq, y, n, b, g, old. eexists _, q, nb.
           split; [apply rtc_refl|]. do 3 (split; [done|]).
           split; [by eapply question_of_not_empty|done].
        -- apply is_answer_affirmative_fail in E3 as ->.
           split; [done|]. cbn [heap]. rewrite <- app_assoc. eauto.
      * apply question_of_fail in E2 as ->. split; [done|]. cbn [heap]. eauto.
    + apply is_answer_affirmative_fail in E0 as ->.
      by apply round_post_same.
  - unfold play_g_node, getitem_A, load. run.
    unfold bind. rewrite Hg. by apply round_post_same.
Qed.

Lemma round_post_weaken (e e' : Prop) h start res :
  (e' -> e) -> round_post e h start res -> round_post e' h start res.
Proof. destruct res as [w' [[]|f]]; [done|]. intros He [Hf Hext]. split; auto. Qed.

Lemma round_post_child e h p c pq y n b res :
  h !! p = Some (QNode pq y n) ->
  (if b then y else n) = Some c ->
  round_post e h c res -> round_post e h p res.
Proof.
  intros Hp Hslot. destruct res as [w' [[]|f]]; [|done].
  intros [Hsame|Hgrown]; [by left|right].
  destruct Hgrown as (p' & pq' & y' & n' & b' & g & old & a & q & nb & Hr & H).
  exists p', pq', y', n', b', g, old, a, q, nb. split; [|done].
  eapply rtc_l; [|exact Hr]. exists pq, y, n. split; [done|].
  destruct b; auto.
Qed.

Lemma affirmative_reads_line w b :
  is_answer_affirmative (Str.lower (Str.strip (hd "" (stdin w)))) = Ok b ->
  length (stdin w) = S (length (tl (stdin w))).
Proof. by destruct (stdin w). Qed.

(** The two mutually recursive walkers, together. *)
Lemma play_post fuel :
  (forall l w,
     round_post (2 * length (stdin w) + 1 <= fuel) (heap w) l
       (play_q_node fuel l w))
  /\ (forall p node b pq y n w,
        heap w !! p = Some (QNode pq y n) ->
        (if b then y else n) = node ->
        round_post (2 * length (stdin w) + 2 <= fuel) (heap w) p
          (play_node fuel p node b w)).
Proof.
  induction fuel as [|fuel [IHq IHn]].
  { split; intros; (apply round_post_same; [lia|done]). }
  split.
  - intros l w. rewrite play_q_node_unfold.
    destruct (heap w !! l) as [[q y n|a]|] eqn:Hl.
    + erewrite bind_run by (by eapply getitem_Q_run).
      unfold affirmative_answer, get_one_word_answer. run.
      destruct (is_answer_affirmative _) as [b|f] eqn:E.
      * apply affirmative_reads_line in E.
        destruct b;
          [erewrite bind_run by (by eapply getitem_Y_run)
          |erewrite bind_run by (by eapply getitem_N_run)].
        all: eapply round_post_weaken;
          [|by eapply (IHn l _ _ q y n (World _ _ (heap w)))].
        all: cbn [stdin]; lia.
      * apply is_answer_affirmative_fail in E as ->.
        by apply round_post_same.
    + unfold getitem_Q, load. run. unfold bind. rewrite Hl.
      by apply round_post_same.
    + unfold getitem_Q, load. run. unfold bind. rewrite Hl.
      by apply round_post_same.
  - intros p node b pq y n w Hp Hslot. rewrite play_node_unfold.
    destruct node as [c|]; [|by apply round_post_same].
    unfold get_Q_truthy, load. run. unfold bind at 1.
    destruct (heap w !! c) as [[[|c0 q0] cy cn|a]|] eqn:Hc;
      [| |
       |by apply round_post_same].
    + eapply round_post_weaken; [|by eapply play_g_node_post]. done.
    + eapply round_post_child; [done..|].
      eapply round_post_weaken; [|apply IHq]. lia.
    + eapply round_post_weaken; [|by eapply play_g_node_post]. done.
Qed.

Lemma play_game_post root w :
  round_post True (heap w) root (play_game root w).
Proof.
  eapply round_post_weaken; [|apply (proj1 (play_post (play_fuel w)))].
  unfold play_fuel. lia.
Qed.

End Round.

(** ** Invariants of the tree *)

Section Invariants.

Implicit Types (h : list node) (p g l root : loc) (w : world).

Lemma node_ok_mono h h' nd :
  length h <= length h' -> node_ok h nd -> node_ok h' nd.
Proof.
  intros Hle. destruct nd as [q y n|a]; [|done].
  intros (Hq & (cy & -> & Hy) & (cn & -> & Hn)).
  split; [done|]. split; eexists; (split; [done|lia]).
Qed.

Lemma child_ext h ext p c : child h p c -> child (h ++ ext) p c.
Proof.
  intros (q & y & n & Hp & Hc). exists q, y, n.
  split; [by apply lookup_app_l_Some|done].
Qed.

Lemma reach_ext h ext root l : reach h root l -> reach (h ++ ext) root l.
Proof.
  induction 1 as [|x z c Hxz _ IH]; [apply rtc_refl|].
  eapply rtc_l; [by apply child_ext|done].
Qed.

(** Dictionaries created after the tree are not part of it. *)
Lemma reach_ext_inv h ext root l :
  tree_ok h root -> reach (h ++ ext) root l -> reach h root l.
Proof.
  intros Hok. revert l. apply rtc_ind_r; [apply rtc_refl|].
  intros z l _ (q & y & n & Hz & Hc) IH.
  destruct (Hok z IH) as (nd & Hnd & _).
  rewrite (lookup_app_l_Some _ _ _ _ Hnd) in Hz. injection Hz as ->.
  eapply rtc_r; [exact IH|]. by exists q, y, n.
Qed.

Lemma tree_ok_ext h ext root : tree_ok h root -> tree_ok (h ++ ext) root.
Proof.
  intros Hok l Hl. apply reach_ext_inv in Hl; [|done].
  destruct (Hok l Hl) as (nd & Hnd & Hnode). exists nd.
  split; [by apply lookup_app_l_Some|].
  eapply node_ok_mono; [|done]. rewrite length_app. lia.
Qed.

Lemma tree_ok_grown h h' root :
  tree_ok h root -> grown h root h' -> tree_ok h' root.
Proof.
  intros Hok (p & pq & y & n & b & g & old & a & q & nb
              & Hrp & Hp & Hslot & Hg & Hq & ->) l Hl.
  pose proof (grow_length h p g b nb a q pq y n Hp) as Hlen.
  pose proof (lookup_lt_Some _ _ _ Hg) as Hglt.
  apply (grow_reach_inv h p g b nb a q pq y n Hp Hslot) in Hl; [|done].
  destruct Hl as [Hl|[-> | ->]].
  - destruct (Hok l Hl) as (nd & Hnd & Hnode).
    destruct (decide (l = p)) as [-> |Hne].
    + rewrite Hp in Hnd. injection Hnd as <-.
      eexists. split; [by apply grow_lookup_parent|].
      destruct Hnode as (Hpq & (cy & -> & Hy) & (cn & -> & Hn)).
      destruct b; (split; [done|]); split; eexists; (split; [done|lia]).
    + exists nd. split.
      * rewrite (grow_lookup_old h p g b nb a q pq y n Hp);
          eauto using lookup_lt_Some.
      * eapply node_ok_mono; [|done]. lia.
  - eexists. split; [by eapply grow_lookup_new_g|done].
  - eexists. split; [by eapply grow_lookup_new_q|].
    split; [done|]. destruct nb; split; eexists; (split; [done|lia]).
Qed.

Lemma tree_ok_initial : tree_ok initial_heap q_node_root.
Proof.
  assert (H : forall l, reach initial_heap q_node_root l -> l < 3).
  { apply rtc_ind_r; [unfold q_node_root; lia|].
    intros z l _ (q & y & n & Hz & Hc) Hlt.
    destruct z as [|[|[|z]]]; [done|done| |lia].
    injection Hz as <- <- <-. unfold g_node_fish, g_node_bird in Hc.
    destruct Hc as [Hc|Hc]; injection Hc as <-; lia. }
  intros l Hl. apply H in Hl.
  destruct l as [|[|[|l]]]; [| | |lia]; eexists; (split; [reflexivity|]);
    try done.
  split; [done|].
  split; eexists; (split; [reflexivity|]);
    unfold g_node_fish, g_node_bird; simpl; lia.
Qed.

(** A property of the store that survives new dictionaries and growth
    holds after every session. *)
Lemma session_ind (P : list node -> Prop) :
  (forall h ext, P h -> P (h ++ ext)) ->
  (forall h h', P h -> grown h q_node_root h' -> P h') ->
  forall rounds w, P (heap w) -> P (heap (session rounds w)).
Proof.
  intros Hext Hgrown rounds.
  induction rounds as [|input rounds IH]; intros w HP; [done|].
  cbn [session].
  pose proof (play_game_post q_node_root (World input (stdout w) (heap w)))
    as Hpost.
  destruct (play_game q_node_root _) as [w' [[]|f]]; cbn [heap] in Hpost.
  - apply IH. destruct Hpost as [-> |Hg]; eauto.
  - destruct Hpost as (_ & ext & ->). by apply Hext.
Qed.

End Invariants.

(** ** How a round returns *)

Section Report.

Implicit Types (h : list node) (p g l : loc) (w : world).





End Report.

(** ** Growth, as the specification states it *)





(** The scenario of the specification: a miss on the no-branch of the seed
    tree. *)
Lemma play_game_miss_on_no_branch :
  heap (play_game q_node_root
          (initial_world ["no"; "no"; "a dog"; "Does it bark?"; "yes"])).1
  = [ GNode "a fish"; GNode "a bird";
      QNode "Does it swim?" (Some 0) (Some 4);
      GNode "a dog"; QNode "Does it bark?" (Some 3) (Some 1) ].
Proof. reflexivity. Qed.

(** C3: whatever rounds are played, on whatever input, the root is the
    dictionary created at startup and it still asks "Does it swim?"; only
    its slots may have changed. *)
Theorem session_root_stable (rounds : list (list string)) (input : list string) :
  exists y n,
    heap (session rounds (initial_world input)) !! q_node_root
    = Some (QNode "Does it swim?" y n).
Proof.
  apply (session_ind
           (fun h => exists y n,
              h !! q_node_root = Some (QNode "Does it swim?" y n))).
  - intros h ext (y & n & H). exists y, n. by apply lookup_app_l_Some.
  - intros h h' (y & n & H)
      (p & pq & py & pn & b & g & old & a & q & nb & _ & Hp & _ & _ & _ & ->).
    by eapply grow_keeps_question.
  - by eexists _, _.
Qed.

(** C4, as the code has it: after any rounds, every question dictionary
    of the tree under the root has a question and both slots set, each to
    a dictionary of the store.  (A new question dictionary is created with
    both slots unset, see [make_q_node_with_q_only_unset]; it is wired
    before the parent's slot is assigned, see
    [play_g_node_grows_by_answer].) *)
Theorem session_tree_binary (rounds : list (list string)) (input : list string)
    (l : loc) (q : string) (y n : option loc) :
  let h := heap (session rounds (initial_world input)) in
  reach h q_node_root l ->
  h !! l = Some (QNode q y n) ->
  q <> ""
  /\ exists cy cn,
       y = Some cy /\ n = Some cn
       /\ is_Some (h !! cy) /\ is_Some (h !! cn).
Proof.
  cbv zeta. intros Hr Hl.
  assert (Hok : tree_ok (heap (session rounds (initial_world input)))
                  q_node_root).
  { apply (session_ind (fun h => tree_ok h q_node_root)).
    - intros h ext. apply tree_ok_ext.
    - intros h h'. apply tree_ok_grown.
    - apply tree_ok_initial. }
  destruct (Hok l Hr) as (nd & Hnd & Hnode).
  rewrite Hl in Hnd. injection Hnd as <-.
  destruct Hnode as (Hq & (cy & -> & Hy) & (cn & -> & Hn)).
  split; [done|]. exists cy, cn.
  repeat split; by apply lookup_lt_is_Some.
Qed.

Lemma session_tree_binary_witness :
  let h :=
    heap (session [["no"; "no"; "a dog"; "Does it bark?"; "yes"]]
            (initial_world [])) in
  reach h q_node_root 4
  /\ h !! 4 = Some (QNode "Does it bark?" (Some 3) (Some 1))
  /\ "Does it bark?" <> ""
  /\ exists cy cn,
       Some 3 = Some cy /\ Some 1 = Some cn
       /\ is_Some (h !! cy) /\ is_Some (h !! cn).
Proof.
  assert (Hr : reach
                 (heap (session [["no"; "no"; "a dog"; "Does it bark?"; "yes"]]
                          (initial_world [])))
                 q_node_root 4).
  { apply rtc_once. exists "Does it swim?", (Some 0), (Some 4).
    split; [reflexivity|by right]. }
  split; [exact Hr|]. split; [reflexivity|].
  apply (session_tree_binary [["no"; "no"; "a dog"; "Does it bark?"; "yes"]]
           [] 4 "Does it bark?" (Some 3) (Some 1) Hr).
  reflexivity.
Defined.

(** C4, the claim as written, fails: [make_q_node_with_q_only] creates the
    question dictionary with both slots unset, and when the answer that
    would wire it cannot be read the dictionary stays that way. *)
Lemma make_q_node_with_q_only_unset :
  ~ (forall l q y n,
       heap (make_q_node_with_q_only "a dog" "a bird"
               (World ["Does it bark?"] [] initial_heap)).1 !! l
       = Some (QNode q y n) ->
       is_Some y /\ is_Some n)
  /\ ~ (forall l q y n,
          heap (play_game q_node_root
                  (initial_world ["no"; "no"; "a dog"; "Does it bark?"; ""])).1
          !! l
          = Some (QNode q y n) ->
          is_Some y /\ is_Some n).
Proof.
  split; intros H.
  - destruct (H 3 "Does it bark?" None None eq_refl) as [[? [=]] _].
  - destruct (H 4 "Does it bark?" None None eq_refl) as [[? [=]] _].
Qed.

(** C5: a round changes a dictionary that existed before it only by the
    one slot assignment of a completed growth event, for which the animal,
    the question and the answer have all been read.  A round that fails
    (it never runs out of fuel) leaves every dictionary as it was, so the
    tree under the root is the tree from before the round. *)
Theorem play_game_mutates_at_splice_only (w : world) (root : loc) :
  let h := heap w in
  let res := play_game root w in
  match res.2 with
  | Ok _ => heap res.1 = h \/ grown h root (heap res.1)
  | Fail f =>
      f <> OutOfFuel
      /\ (exists ext, heap res.1 = h ++ ext)
      /\ (forall l nd, h !! l = Some nd -> heap res.1 !! l = Some nd)
      /\ (tree_ok h root ->
          forall l, reach (heap res.1) root l <-> reach h root l)
  end.
Proof.
  cbv zeta. pose proof (play_game_post root w) as Hpost.
  destruct (play_game root w) as [w' [[]|f]]; [done|].
  cbn [fst snd] in *. destruct Hpost as (Hf & ext & ->).
  split; [by apply Hf|]. split; [by exists ext|].
  split; [intros l nd; apply lookup_app_l_Some|].
  intros Hok l. split; [by apply reach_ext_inv|apply reach_ext].
Qed.

Lemma play_game_mutates_at_splice_only_witness :
  let w := initial_world ["no"; "no"; "a dog"; "Does it bark?"; ""] in
  let h := heap w in
  let res := play_game q_node_root w in
  res.2 = Fail (Raise IndexError)
  /\ match res.2 with
     | Ok _ => heap res.1 = h \/ grown h q_node_root (heap res.1)
     | Fail f =>
         f <> OutOfFuel
         /\ (exists ext, heap res.1 = h ++ ext)
         /\ (forall l nd, h !! l = Some nd -> heap res.1 !! l = Some nd)
         /\ (tree_ok h q_node_root ->
             forall l, reach (heap res.1) q_node_root l <-> reach h q_node_root l)
     end.
Proof.
  split; [reflexivity|].
  apply (play_game_mutates_at_splice_only
           (initial_world ["no"; "no"; "a dog"; "Does it bark?"; ""])
           q_node_root).
Defined.

(** ** The trace walker *)

Section Trace.

Implicit Types (h : list node) (l : loc) (w : world) (t : tree).

Lemma get_Q_truthy_question l q y n w :
  heap w !! l = Some (QNode q y n) -> q <> "" ->
  get_Q_truthy l w = (w, Ok true).
Proof.
  intros Hl Hq. unfold get_Q_truthy, bind, load. rewrite Hl.
  by destruct q.
Qed.

Lemma get_Q_truthy_guess l a w :
  heap w !! l = Some (GNode a) -> get_Q_truthy l w = (w, Ok false).
Proof. intros Hl. unfold get_Q_truthy, bind, load. by rewrite Hl. Qed.

Lemma print_game_tree_unfold fuel node level :
  print_game_tree (S fuel) node level
  = match node with
    | None => raise AttributeError
    | Some l =>
        t <- get_Q_truthy l ;;
        if t then
          q <- getitem_Q l ;;
          print (get_indent_str level +:+ "Question: " +:+ q +:+ " -> yes:") ;;;
          y <- getitem_Y l ;;
          print_game_tree fuel y (level + 1) ;;;
          q' <- getitem_Q l ;;
          print (get_indent_str level +:+ "Question: " +:+ q' +:+ " -> no:") ;;;
          n <- getitem_N l ;;
          print_game_tree fuel n (level + 1)
        else
          a <- getitem_A l ;;
          print (get_indent_str level +:+ "Guess: " +:+ a)
    end.
Proof. reflexivity. Qed.

Lemma print_game_tree_represented h l t :
  represents h l t ->
  forall fuel level i o,
    height t <= fuel ->
    print_game_tree fuel (Some l) level (World i o h)
    = (World i (o ++ trace t level) h, Ok tt).
Proof.
  induction 1 as [l a Hl|l q y n ty tn Hl Hq _ IHy _ IHn];
    intros [|fuel] level i o Hfuel; cbn [height] in Hfuel; try lia;
    rewrite print_game_tree_unfold; cbv iota beta.
  - erewrite bind_run by (by eapply get_Q_truthy_guess). cbv iota beta.
    erewrite bind_run by (by eapply getitem_A_run).
    reflexivity.
  - erewrite bind_run by (by eapply get_Q_truthy_question). cbv iota beta.
    erewrite bind_run by (by eapply getitem_Q_run).
    run. erewrite bind_run by (by eapply getitem_Y_run).
    erewrite bind_run by (apply IHy; lia).
    erewrite bind_run by (by eapply getitem_Q_run).
    run. erewrite bind_run by (by eapply getitem_N_run).
    rewrite IHn by lia. cbn [trace].
    by rewrite <- !app_assoc.
Qed.

Lemma trace_length t level :
  length (trace t level) = 2 * questions t + length (guesses t).
Proof.
  revert level. induction t as [a|q ty IHy tn IHn]; intros level; [done|].
  cbn [trace questions guesses length].
  rewrite !length_app. cbn [length]. rewrite IHy, IHn. lia.
Qed.

Lemma trace_guesses t level a :
  a ∈ guesses t ->
  exists k : nat,
    (get_indent_str (level + Z.of_nat k) +:+ "Guess: " +:+ a)
    ∈ trace t level.
Proof.
  revert level. induction t as [a'|q ty IHy tn IHn]; intros level Ha.
  - apply list_elem_of_singleton in Ha as ->. exists 0.
    rewrite Z.add_0_r. apply list_elem_of_singleton. done.
  - cbn [guesses] in Ha. apply elem_of_app in Ha as [Ha|Ha].
    + destruct (IHy (level + 1)%Z Ha) as [k Hk]. exists (S k).
      replace (level + Z.of_nat (S k))%Z with (level + 1 + Z.of_nat k)%Z by lia.
      cbn [trace]. apply list_elem_of_further, elem_of_app. by left.
    + destruct (IHn (level + 1)%Z Ha) as [k Hk]. exists (S k).
      replace (level + Z.of_nat (S k))%Z with (level + 1 + Z.of_nat k)%Z by lia.
      cbn [trace]. apply list_elem_of_further, elem_of_app. right.
      by apply list_elem_of_further.
Qed.

End Trace.

(** ** Actions that only print *)

Section OnlyPrints.

Context {A B : Type}.
Implicit Types (h : list node) (l : loc).

Lemma only_prints_ret (a : A) h : only_prints (ret a) h.
Proof. exists [], (Ok a). intros i o. by rewrite app_nil_r. Qed.

Lemma only_prints_lift (r : outcome A) h : only_prints (lift r) h.
Proof. exists [], r. intros i o. by rewrite app_nil_r. Qed.

Lemma only_prints_raise e h : only_prints (@raise A e) h.
Proof. exists [], (Fail (Raise e)). intros i o. by rewrite app_nil_r. Qed.

Lemma only_prints_bind (m : M A) (k : A -> M B) h :
  only_prints m h -> (forall a, only_prints (k a) h) ->
  only_prints (bind m k) h.
Proof.
  intros (lines & [a|f] & Hm) Hk.
  - destruct (Hk a) as (lines' & r & Hka). exists (lines ++ lines'), r.
    intros i o. unfold bind. by rewrite Hm, Hka, app_assoc.
  - exists lines, (Fail f). intros i o. unfold bind. by rewrite Hm.
Qed.

End OnlyPrints.

Lemma only_prints_print s h : only_prints (print s) h.
Proof. by exists [s], (Ok tt). Qed.

Lemma only_prints_load l h : only_prints (load l) h.
Proof.
  unfold load. destruct (h !! l) as [nd|] eqn:E.
  - exists [], (Ok nd). intros i o. cbn [heap]. by rewrite E, app_nil_r.
  - exists [], (Fail Dangling). intros i o. cbn [heap]. by rewrite E, app_nil_r.
Qed.

Lemma only_prints_getitem_Q l h : only_prints (getitem_Q l) h.
Proof.
  apply only_prints_bind; [apply only_prints_load|].
  intros []; [apply only_prints_ret|apply only_prints_raise].
Qed.

Lemma only_prints_getitem_A l h : only_prints (getitem_A l) h.
Proof.
  apply only_prints_bind; [apply only_prints_load|].
  intros []; [apply only_prints_raise|apply only_prints_ret].
Qed.

Lemma only_prints_getitem_Y l h : only_prints (getitem_Y l) h.
Proof.
  apply only_prints_bind; [apply only_prints_load|].
  intros []; [apply only_prints_ret|apply only_prints_raise].
Qed.

Lemma only_prints_getitem_N l h : only_prints (getitem_N l) h.
Proof.
  apply only_prints_bind; [apply only_prints_load|].
  intros []; [apply only_prints_ret|apply only_prints_raise].
Qed.

Lemma only_prints_get_Q_truthy l h : only_prints (get_Q_truthy l) h.
Proof.
  apply only_prints_bind; [apply only_prints_load|].
  intros [[|c q] y n|a]; apply only_prints_ret.
Qed.

Lemma print_game_tree_only_prints fuel node level h :
  only_prints (print_game_tree fuel node level) h.
Proof.
  revert node level. induction fuel as [|fuel IH]; intros node level.
  { apply only_prints_lift. }
  rewrite print_game_tree_unfold.
  destruct node as [l|]; [|apply only_prints_raise].
  apply only_prints_bind; [apply only_prints_get_Q_truthy|]. intros [].
  - apply only_prints_bind; [apply only_prints_getitem_Q|]. intros q.
    apply only_prints_bind; [apply only_prints_print|]. intros _.
    apply only_prints_bind; [apply only_prints_getitem_Y|]. intros y.
    apply only_prints_bind; [apply IH|]. intros _.
    apply only_prints_bind; [apply only_prints_getitem_Q|]. intros q'.
    apply only_prints_bind; [apply only_prints_print|]. intros _.
    apply only_prints_bind; [apply only_prints_getitem_N|]. intros n.
    apply IH.
  - apply only_prints_bind; [apply only_prints_getitem_A|]. intros a.
    apply only_prints_print.
Qed.

(** X1: printing the tree reads the store and nothing else.  On every
    store, for every start node, level and fuel, [print_game_tree] leaves
    the input and every dictionary as they were and only adds lines to the
    output; the lines and the way the call ends are the same whatever was
    read or printed before, so a second call right after the first prints
    the same lines again and ends the same way. *)
Theorem print_game_tree_idempotent (fuel : nat) (node : option loc)
    (level : Z) (w : world) :
  let r1 := print_game_tree fuel node level w in
  let r2 := print_game_tree fuel node level r1.1 in
  exists lines,
    stdin r1.1 = stdin w /\ heap r1.1 = heap w
    /\ stdout r1.1 = stdout w ++ lines
    /\ stdin r2.1 = stdin w /\ heap r2.1 = heap w
    /\ stdout r2.1 = stdout w ++ lines ++ lines
    /\ r2.2 = r1.2.
Proof.
  cbv zeta.
  destruct (print_game_tree_only_prints fuel node level (heap w))
    as (lines & r & H).
  destruct w as [i o h]. cbn [heap stdin stdout] in *.
  exists lines. rewrite !H. cbn [fst snd stdin stdout heap].
  rewrite H. cbn [fst snd stdin stdout heap].
  by rewrite app_assoc.
Qed.

(** ** Rounds on a store that holds a tree *)

Section Safe.

Implicit Types (h : list node) (p g l c : loc) (w : world) (t : tree).

Lemma tl_suffix (i : list string) : tl i `suffix_of` i.
Proof. destruct i; [done|]. by apply suffix_cons_r. Qed.

Lemma round_safe_fail {A} i w f :
  stdin w `suffix_of` i -> f = OutOfFuel \/ f = Raise IndexError ->
  @round_safe A i (w, Fail f).
Proof. intros Hs Hf. split; [done|]. by intros f' [= <-]. Qed.

Lemma round_safe_ok {A} i w (a : A) :
  stdin w `suffix_of` i -> round_safe i (w, Ok a).
Proof. intros Hs. split; [done|]. by intros f' [=]. Qed.

Lemma round_safe_trans {A} i i' (res : world * outcome A) :
  i' `suffix_of` i -> round_safe i' res -> round_safe i res.
Proof. intros Hs [H1 H2]. split; [by etrans|done]. Qed.

Lemma play_g_node_safe p g b old pq y n w :
  heap w !! g = Some (GNode old) ->
  heap w !! p = Some (QNode pq y n) ->
  round_safe (stdin w) (play_g_node p g b w).
Proof.
  intros Hg Hp. rewrite (play_g_node_run p g b old pq y n) by done.
  cbv zeta.
  assert (H1 := tl_suffix (stdin w)).
  assert (H2 := tl_suffix (tl (stdin w))).
  assert (H3 := tl_suffix (tl (tl (stdin w)))).
  assert (H4 := tl_suffix (tl (tl (tl (stdin w))))).
  assert (S3 : tl (tl (tl (stdin w))) `suffix_of` stdin w)
    by (etrans; [|exact H1]; etrans; [|exact H2]; done).
  assert (S4 : tl (tl (tl (tl (stdin w)))) `suffix_of` stdin w)
    by (etrans; [exact H4|done]).
  destruct (is_answer_affirmative _) as [[]|f] eqn:E0.
  - by apply round_safe_ok.
  - destruct (question_of _) as [q|f] eqn:E2.
    + destruct (is_answer_affirmative
                  (Str.lower (Str.strip (hd "" (tl (tl (tl _)))))))
        as [nb|f] eqn:E3.
      * by apply round_safe_ok.
      * apply round_safe_fail; [done|].
        right. by eapply is_answer_affirmative_fail.
    + apply round_safe_fail; [done|]. right. by eapply question_of_fail.
  - apply round_safe_fail; [done|]. right. by eapply is_answer_affirmative_fail.
Qed.

(** [play_q_node] on a question dictionary whose two children are played
    safely. *)
Lemma play_q_node_safe_step h l q y n :
  h !! l = Some (QNode q (Some y) (Some n)) ->
  (forall fuel b i o,
     round_safe i (play_node fuel l (Some y) b (World i o h))) ->
  (forall fuel b i o,
     round_safe i (play_node fuel l (Some n) b (World i o h))) ->
  forall fuel i o, round_safe i (play_q_node fuel l (World i o h)).
Proof.
  intros Hl Hy Hn [|fuel] i o.
  { by apply round_safe_fail; [|left]. }
  rewrite play_q_node_unfold.
  erewrite bind_run by (by eapply getitem_Q_run).
  unfold affirmative_answer, get_one_word_answer. run.
  destruct (is_answer_affirmative _) as [[]|f] eqn:E.
  - erewrite bind_run by (by eapply getitem_Y_run).
    eapply round_safe_trans; [apply tl_suffix|apply Hy].
  - erewrite bind_run by (by eapply getitem_N_run).
    eapply round_safe_trans; [apply tl_suffix|apply Hn].
  - apply round_safe_fail; [apply tl_suffix|].
    right. by eapply is_answer_affirmative_fail.
Qed.

Lemma play_node_safe h c t :
  represents h c t ->
  forall fuel p pq y n b i o,
    h !! p = Some (QNode pq y n) ->
    round_safe i (play_node fuel p (Some c) b (World i o h)).
Proof.
  induction 1 as [c a Hc|c q cy cn ty tn Hc Hq _ IHy _ IHn];
    intros [|fuel] p pq y n b i o Hp;
    try (by apply round_safe_fail; [|left]);
    rewrite play_node_unfold; cbv iota beta.
  - erewrite bind_run by (by eapply get_Q_truthy_guess). cbv iota beta.
    by eapply (play_g_node_safe p c b a pq y n (World i o h)).
  - erewrite bind_run by (by eapply get_Q_truthy_question). cbv iota beta.
    eapply play_q_node_safe_step; [done| |]; intros; eauto.
Qed.

Lemma play_q_node_safe h l q ty tn :
  represents h l (Question q ty tn) ->
  forall fuel i o, round_safe i (play_q_node fuel l (World i o h)).
Proof.
  inversion 1 as [|? ? y n ? ? Hl Hq Hy Hn]; subst.
  eapply play_q_node_safe_step; [done| |]; intros;
    eapply play_node_safe; eauto.
Qed.

(** A round on a tree returns or raises [IndexError]. *)
Lemma play_game_safe h l q ty tn i o :
  represents h l (Question q ty tn) ->
  let res := play_game l (World i o h) in
  stdin res.1 `suffix_of` i
  /\ (res.2 = Ok tt \/ res.2 = Fail (Raise IndexError)).
Proof.
  intros Hrep. cbv zeta.
  pose proof (play_game_post l (World i o h)) as Hpost.
  destruct (play_q_node_safe h l q ty tn Hrep (play_fuel (World i o h)) i o)
    as [Hs Hf].
  unfold play_game in *.
  destruct (play_q_node _ l _) as [w' [[]|f]]; cbn [fst snd] in *.
  - split; [done|by left].
  - split; [done|right]. destruct Hpost as [Hfuel _].
    destruct (Hf f eq_refl) as [-> | ->]; [by destruct Hfuel|done].
Qed.

End Safe.

(** ** The tree across growth *)

Section TreeGrowth.

Implicit Types (h : list node) (p g l : loc) (t : tree).

Lemma height_pos t : 1 <= height t.
Proof. destruct t; cbn [height]; lia. Qed.

Lemma represents_ext h ext l t :
  represents h l t -> represents (h ++ ext) l t.
Proof.
  induction 1 as [l a Hl|l q y n ty tn Hl Hq _ IHy _ IHn].
  - apply represents_guess. by apply lookup_app_l_Some.
  - eapply represents_question; [by apply lookup_app_l_Some|done..].
Qed.

Lemma represents_inj h l t t' :
  represents h l t -> represents h l t' -> t = t'.
Proof.
  intros H. revert t'.
  induction H as [l a Hl|l q y n ty tn Hl Hq _ IHy _ IHn];
    intros t' H'; inversion H' as [? ? Hl'|? ? ? ? ? ? Hl' ? Hy' Hn']; subst;
    rewrite Hl in Hl'; simplify_eq; [done|].
  by rewrite (IHy _ Hy'), (IHn _ Hn').
Qed.

(** After growth the store still holds a tree under every dictionary that
    held one; the tree is at most one level higher, and a question keeps
    its text. *)
Lemma represents_grow h p g (b nb : bool) (a q pq : string)
    (y n : option loc) (old : string) l t :
  h !! p = Some (QNode pq y n) ->
  (if b then y else n) = Some g ->
  h !! g = Some (GNode old) ->
  q <> "" ->
  represents h l t ->
  exists t',
    represents (grow h p b g a q nb) l t'
    /\ height t' <= S (height t)
    /\ match t with
       | Guess a0 => t' = Guess a0
       | Question q0 _ _ => exists ty' tn', t' = Question q0 ty' tn'
       end.
Proof.
  intros Hp Hslot Hg Hq.
  set (h' := grow h p b g a q nb).
  assert (Hg' : represents h' g (Guess old)).
  { apply represents_guess. by eapply grow_keeps_guess. }
  assert (Hnew_g : represents h' (length h) (Guess a)).
  { apply represents_guess. by eapply grow_lookup_new_g. }
  assert (Hnew_q : exists tq,
             represents h' (S (length h)) tq /\ height tq = 2).
  { pose proof (grow_lookup_new_q h p g b nb a q pq y n Hp) as Hq'.
    fold h' in Hq'. clearbody h'. destruct nb.
    - exists (Question q (Guess a) (Guess old)). split; [|done].
      by eapply represents_question.
    - exists (Question q (Guess old) (Guess a)). split; [|done].
      by eapply represents_question. }
  destruct Hnew_q as (tq & Hrq & Hhq).
  induction 1 as [l a0 Hl|l q0 cy cn ty tn Hl Hq0 Hy IHy Hn IHn].
  - exists (Guess a0). split; [|split; [cbn; lia|done]].
    apply represents_guess. by eapply grow_keeps_guess.
  - destruct IHy as (ty' & Hry & Hhy & _).
    destruct IHn as (tn' & Hrn & Hhn & _).
    pose proof (height_pos ty). pose proof (height_pos tn).
    destruct (decide (l = p)) as [-> |Hne].
    + rewrite Hp in Hl. injection Hl as -> -> ->.
      pose proof (grow_lookup_parent h p g b nb a q q0 _ _ Hp) as Hp'.
      fold h' in Hp'. destruct b.
      * exists (Question q0 tq tn'). split; [|split; [cbn; lia|eauto]].
        by eapply represents_question.
      * exists (Question q0 ty' tq). split; [|split; [cbn; lia|eauto]].
        by eapply represents_question.
    + exists (Question q0 ty' tn'). split; [|split; [cbn; lia|eauto]].
      eapply represents_question; [|done..]. unfold h'.
      rewrite (grow_lookup_old h p g b nb a q pq y n Hp); [done..|].
      by eapply lookup_lt_Some.
Qed.

Lemma shell_inv_initial : shell_inv initial_heap.
Proof.
  exists (Guess "a fish"), (Guess "a bird"). split; [|cbn; lia].
  eapply represents_question; [reflexivity|done|..];
    by apply represents_guess.
Qed.

Lemma shell_inv_ext h ext : shell_inv h -> shell_inv (h ++ ext).
Proof.
  intros (ty & tn & Hrep & Hh). exists ty, tn.
  split; [by apply represents_ext|]. rewrite length_app. lia.
Qed.

Lemma shell_inv_grown h h' : shell_inv h -> grown h q_node_root h' -> shell_inv h'.
Proof.
  intros (ty & tn & Hrep & Hh)
    (p & pq & y & n & b & g & old & a & q & nb
     & _ & Hp & Hslot & Hg & Hq & ->).
  destruct (represents_grow h p g b nb a q pq y n old _ _ Hp Hslot Hg Hq Hrep)
    as (t' & Hrep' & Hh' & ty' & tn' & ->).
  exists ty', tn'. split; [done|].
  rewrite (grow_length h p g b nb a q pq y n Hp). lia.
Qed.

End TreeGrowth.

(** ** The main loop *)

Section Shell.

Implicit Types (h : list node) (w : world).

Lemma main_loop_unfold fuel :
  main_loop (S fuel)
  = (print "" ;;;
     print "Are you thinking of an animal?" ;;;
     answer_str <- get_one_word_answer ;;
     b <- lift (is_answer_affirmative answer_str) ;;
     if b then play_game q_node_root ;;; main_loop fuel
     else
       t <- lift (is_answer_tree answer_str) ;;
       if t then print "Game tree:" ;;; print_root_tree ;;; main_loop fuel
       else print "Goodbye for now!").
Proof. reflexivity. Qed.

Lemma is_answer_tree_after_affirmative s b :
  is_answer_affirmative s = Ok b -> exists t, is_answer_tree s = Ok t.
Proof. destruct s; [done|]. by eexists. Qed.

Lemma print_root_tree_run w :
  shell_inv (heap w) ->
  exists lines,
    print_root_tree w = (World (stdin w) (stdout w ++ lines) (heap w), Ok tt).
Proof.
  intros (ty & tn & Hrep & Hh). destruct w as [i o h].
  eexists. unfold print_root_tree. cbn [heap stdin stdout] in *.
  by apply (print_game_tree_represented h q_node_root _ Hrep).
Qed.

Lemma shell_inv_round w :
  shell_inv (heap w) ->
  let res := play_game q_node_root w in
  shell_inv (heap res.1)
  /\ stdin res.1 `suffix_of` stdin w
  /\ (res.2 = Ok tt \/ res.2 = Fail (Raise IndexError)).
Proof.
  intros Hinv. cbv zeta.
  pose proof (play_game_post q_node_root w) as Hpost.
  destruct Hinv as (ty & tn & Hrep & Hh).
  destruct w as [i o h]. cbn [heap stdin] in *.
  destruct (play_game_safe h q_node_root _ ty tn i o Hrep) as [Hs Hr].
  split; [|done].
  assert (Hinv : shell_inv h) by (by exists ty, tn).
  destruct (play_game q_node_root _) as [w' [[]|f]]; cbn [fst snd heap] in *.
  - destruct Hpost as [-> |Hg]; [done|by eapply shell_inv_grown].
  - destruct Hpost as (_ & ext & ->). by apply shell_inv_ext.
Qed.

Lemma main_loop_safe fuel w :
  shell_inv (heap w) ->
  length (stdin w) < fuel ->
  let res := main_loop fuel w in
  shell_inv (heap res.1)
  /\ (res.2 = Ok tt /\ last (stdout res.1) = Some "Goodbye for now!"
      \/ res.2 = Fail (Raise IndexError)).
Proof.
  revert w. induction fuel as [|fuel IH]; intros w Hinv Hlt; [lia|].
  cbv zeta. rewrite main_loop_unfold. unfold get_one_word_answer. run.
  destruct (is_answer_affirmative _) as [b|f] eqn:E; cbv iota beta.
  - pose proof (affirmative_reads_line w b E) as Hlen.
    destruct b.
    + set (w1 := World _ _ _).
      destruct (shell_inv_round w1 Hinv) as (Hinv' & Hs & Hr).
      apply suffix_length in Hs.
      destruct (play_game q_node_root w1) as [w' [[]|f]] eqn:Hplay;
        cbn [fst snd] in *.
      * rewrite (bind_run _ _ _ _ _ Hplay).
        apply IH; [done|]. subst w1. cbn [stdin] in Hs. lia.
      * rewrite (bind_fail _ _ _ _ _ Hplay).
        destruct Hr as [[=]|[= ->]]. split; [done|by right].
    + destruct (is_answer_tree_after_affirmative _ _ E) as [t ->].
      cbv iota beta. destruct t.
      * run. set (w1 := World _ _ _).
        destruct (print_root_tree_run w1 Hinv) as [lines Hrun].
        erewrite bind_run by exact Hrun.
        apply IH; [done|]. subst w1. cbn [stdin]. lia.
      * split; [done|left]. split; [done|].
        cbn [fst stdout print]. apply last_snoc.
  - apply is_answer_affirmative_fail in E as ->.
    split; [done|by right].
Qed.

Lemma banner_run w :
  exists lines,
    banner w = (World (stdin w) (stdout w ++ lines) (heap w), Ok tt).
Proof.
  eexists. unfold banner. run. unfold print. cbn [stdin stdout heap].
  rewrite <- !app_assoc. reflexivity.
Qed.

End Shell.

(** ** Learning *)

Section Learning.

Implicit Types (h : list node) (p g l : loc) (w : world) (b nb : bool).







End Learning.

(** ** More on answers and questions *)

Section Answers.

Local Ltac by_cases_on c :=
  destruct c as [[] [] [] [] [] [] [] []]; vm_compute; reflexivity.

Lemma upper_lower_upper_lower c :
  Str.upper_char (Str.lower_char (Str.upper_char (Str.lower_char c)))
  = Str.upper_char (Str.lower_char c).
Proof. by_cases_on c. Qed.

Lemma lower_append_qmark s : Str.lower (s +:+ "?") = Str.lower s +:+ "?".
Proof.
  induction s as [|c s IH]; [done|].
  change (String (Str.lower_char c) (Str.lower (s +:+ "?"))
          = String (Str.lower_char c) (Str.lower s +:+ "?")).
  by rewrite IH.
Qed.

Lemma question_of_last raw q : question_of raw = Ok q -> Str.last q = Some "?"%char.
Proof.
  unfold question_of.
  destruct (Str.last (Str.capitalize (Str.lower raw))) as [c|] eqn:E; [|done].
  destruct (Ascii.eqb_spec c "?") as [-> |Hc]; intros [= <-]; [done|].
  apply append_last.
Qed.

(** A stored question is a capital-initial, otherwise lower-case text. *)
Lemma question_of_shape raw q :
  question_of raw = Ok q ->
  exists c s, q = String (Str.upper_char (Str.lower_char c)) (Str.lower s).
Proof.
  unfold question_of. destruct raw as [|c s]; [done|].
  cbn [Str.lower Str.capitalize].
  destruct (Str.last _) as [c'|]; [|done].
  destruct (Ascii.eqb c' "?"); intros [= <-].
  - by exists c, (Str.lower s).
  - exists c, (Str.lower s +:+ "?").
    by rewrite lower_append_qmark, !lower_idem.
Qed.

Lemma rstrip_idem s : Str.rstrip (Str.rstrip s) = Str.rstrip s.
Proof.
  induction s as [|c s IH]; [done|]. cbn [Str.rstrip].
  destruct (Str.rstrip s) as [|c' r] eqn:E.
  - destruct (Str.is_space c) eqn:Ec; [done|]. cbn [Str.rstrip]. by rewrite Ec.
  - cbn [Str.rstrip] in *. by rewrite IH.
Qed.

Lemma rstrip_lower s : Str.rstrip (Str.lower s) = Str.lower (Str.rstrip s).
Proof.
  induction s as [|c s IH]; [done|]. cbn [Str.rstrip Str.lower].
  rewrite IH, lower_char_space.
  destruct (Str.rstrip s); [by destruct (Str.is_space c)|done].
Qed.

Lemma rstrip_append_qmark s : Str.rstrip (s +:+ "?") = s +:+ "?".
Proof.
  induction s as [|c s IH]; [done|].
  change (Str.rstrip (String c (s +:+ "?")) = String c (s +:+ "?")).
  cbn [Str.rstrip]. rewrite IH. destruct (s +:+ "?") eqn:E; [|done].
  by destruct s.
Qed.

Lemma rstrip_cons_fixed c s :
  Str.rstrip (String c s) = String c s -> Str.rstrip s = s.
Proof.
  cbn [Str.rstrip]. destruct (Str.rstrip s) as [|c' r].
  - by destruct (Str.is_space c); [|intros [= <-]].
  - by intros [= <-].
Qed.

Lemma upper_lower_space c :
  Str.is_space (Str.upper_char (Str.lower_char c)) = Str.is_space c.
Proof. by_cases_on c. Qed.

(** The text kept by [strip] starts with a character that is not white
    space and is not changed by [rstrip]. *)
Lemma strip_cons l c s :
  Str.strip l = String c s ->
  Str.is_space c = false /\ Str.rstrip s = s.
Proof.
  unfold Str.strip. intros H.
  destruct (Str.lstrip l) as [|c0 s0] eqn:E; [done|].
  pose proof (lstrip_head l c0 s0 E) as Hc0.
  destruct (rstrip_head c0 s0 Hc0) as [s' Hs']. rewrite Hs' in H.
  injection H as -> ->. split; [done|].
  apply (rstrip_cons_fixed c). rewrite <- Hs'. apply rstrip_idem.
Qed.

(** A stored question has no white space around it. *)
Lemma question_of_stripped l q :
  question_of (Str.strip l) = Ok q -> Str.strip q = q.
Proof.
  unfold question_of. destruct (Str.strip l) as [|c s] eqn:E; [done|].
  destruct (strip_cons l c s E) as [Hc Hs].
  cbn [Str.lower Str.capitalize]. rewrite lower_idem.
  assert (Hr : Str.rstrip (Str.lower s) = Str.lower s)
    by (by rewrite rstrip_lower, Hs).
  assert (Hc' : Str.is_space (Str.upper_char (Str.lower_char c)) = false)
    by (by rewrite upper_lower_space).
  destruct (Str.last _) as [c'|]; [|done].
  destruct (Ascii.eqb c' "?"); intros [= <-].
  - unfold Str.strip. cbn [Str.lstrip]. rewrite Hc'.
    cbn [Str.rstrip]. rewrite Hr.
    destruct (Str.lower s); [by rewrite Hc'|done].
  - change (Str.strip (String (Str.upper_char (Str.lower_char c))
                         (Str.lower s +:+ "?"))
            = String (Str.upper_char (Str.lower_char c)) (Str.lower s +:+ "?")).
    unfold Str.strip. cbn [Str.lstrip]. rewrite Hc'.
    cbn [Str.rstrip]. rewrite rstrip_append_qmark.
    destruct (Str.lower s +:+ "?") eqn:E'; [|done]. by destruct (Str.lower s).
Qed.

End Answers.

(** X7: for an ASCII line, a yes/no answer depends only on the first
    character of the line that is not white space: the answer is yes when
    that character is ['y'] or ['Y'], no when it is anything else, and when
    the line has no such character (it is empty or blank) the read raises
    [IndexError].  The line is consumed in every case and nothing else
    changes. *)
Theorem affirmative_answer_first_nonblank (l : string) (rest out : list string)
    (h : list node) :
  Str.is_ascii l = true ->
  affirmative_answer (World (l :: rest) out h)
  = (World rest out h,
     match Str.lstrip l with
     | EmptyString => Fail (Raise IndexError)
     | String c _ => Ok (Ascii.eqb c "y" || Ascii.eqb c "Y")
     end).
Proof.
  intros _. rewrite affirmative_answer_run. f_equal. unfold Str.strip.
  destruct (Str.lstrip l) as [|c s] eqn:E; [done|].
  destruct (rstrip_head c s (lstrip_head l c s E)) as [s' ->].
  cbn [Str.lower is_answer_affirmative]. by rewrite lower_char_is_y.
Qed.

Lemma affirmative_answer_first_nonblank_witness :
  Str.is_ascii "   Yup" = true
  /\ affirmative_answer (World ["   Yup"; "next"] [] initial_heap)
     = (World ["next"] [] initial_heap, Ok true)
  /\ affirmative_answer (World ["   "; "next"] [] initial_heap)
     = (World ["next"] [] initial_heap, Fail (Raise IndexError)).
Proof.
  split; [reflexivity|]. split.
  - apply (affirmative_answer_first_nonblank "   Yup" ["next"] [] initial_heap).
    reflexivity.
  - apply (affirmative_answer_first_nonblank "   " ["next"] [] initial_heap).
    reflexivity.
Defined.

Lemma question_of_idempotent (raw q : string) :
  question_of raw = Ok q -> question_of q = Ok q.
Proof.
  intros H. pose proof (question_of_last raw q H) as Hlast.
  destruct (question_of_shape raw q H) as (c & s & ->).
  unfold question_of. cbn [Str.lower Str.capitalize].
  rewrite upper_lower_upper_lower, !lower_idem, Hlast. reflexivity.
Qed.

(** X8: normalizing is idempotent on ASCII text: a question that
    [get_question] has made of an ASCII line, typed in again as it is, is
    stored unchanged. *)
Theorem get_question_idempotent (l q : string) (rest0 out0 : list string)
    (h0 : list node) (rest out : list string) (h : list node) :
  Str.is_ascii l = true ->
  get_question (World (l :: rest0) out0 h0) = (World rest0 out0 h0, Ok q) ->
  get_question (World (q :: rest) out h) = (World rest out h, Ok q).
Proof.
  intros _ Hq. rewrite get_question_run in Hq. injection Hq as Hq.
  rewrite get_question_run, (question_of_stripped l q Hq).
  f_equal. by eapply question_of_idempotent.
Qed.

Lemma get_question_idempotent_witness :
  Str.is_ascii "  does it BARK " = true
  /\ get_question (World ["  does it BARK "] [] initial_heap)
     = (World [] [] initial_heap, Ok "Does it bark?")
  /\ get_question (World ["Does it bark?"] [] initial_heap)
     = (World [] [] initial_heap, Ok "Does it bark?").
Proof.
  split; [reflexivity|]. split; [reflexivity|].
  apply (get_question_idempotent "  does it BARK " "Does it bark?"
           [] [] initial_heap [] [] initial_heap);
    reflexivity.
Defined.

(** ** The depth of the recursion *)

Section Depth.

Implicit Types (h : list node) (p g l c : loc) (w : world) (t : tree).

Lemma bind_congr {A B} (m : M A) (k k' : A -> M B) w :
  (bind m k w).2 <> Fail OutOfFuel ->
  (forall a w1,
     m w = (w1, Ok a) -> (k a w1).2 <> Fail OutOfFuel -> k' a w1 = k a w1) ->
  bind m k' w = bind m k w.
Proof.
  unfold bind. destruct (m w) as [w1 [a|f]]; [|done].
  intros Hk H. by apply H.
Qed.

(** More fuel does not change a run that had enough. *)
Lemma play_mono fuel :
  (forall l w fuel',
     (play_q_node fuel l w).2 <> Fail OutOfFuel -> fuel <= fuel' ->
     play_q_node fuel' l w = play_q_node fuel l w)
  /\ (forall p node b w fuel',
        (play_node fuel p node b w).2 <> Fail OutOfFuel -> fuel <= fuel' ->
        play_node fuel' p node b w = play_node fuel p node b w).
Proof.
  induction fuel as [|fuel [IHq IHn]]; [by split|].
  split.
  - intros l w [|fuel'] H Hle; [lia|].
    rewrite !play_q_node_unfold in *.
    apply bind_congr; [done|]. intros q w1 _ H1.
    apply bind_congr; [done|]. intros [] w2 _ H2.
    apply bind_congr; [done|]. intros b w3 _ H3.
    destruct b; (apply bind_congr; [done|]); intros c w4 _ H4;
      (apply IHn; [done|lia]).
  - intros p node b w [|fuel'] H Hle; [lia|].
    rewrite !play_node_unfold in *.
    destruct node as [c|]; [|done].
    apply bind_congr; [done|]. intros t w1 _ H1.
    destruct t; [|done]. apply IHq; [done|lia].
Qed.

Lemma play_g_node_has_fuel p g b old pq y n w :
  heap w !! g = Some (GNode old) ->
  heap w !! p = Some (QNode pq y n) ->
  (play_g_node p g b w).2 <> Fail OutOfFuel.
Proof.
  intros Hg Hp. rewrite (play_g_node_run p g b old pq y n) by done.
  cbv zeta.
  destruct (is_answer_affirmative _) as [[]|f] eqn:E0; [done| |].
  - destruct (question_of _) as [q|f] eqn:E2.
    + destruct (is_answer_affirmative
                  (Str.lower (Str.strip (hd "" (tl (tl (tl _)))))))
        as [nb|f] eqn:E3; [done|].
      by apply is_answer_affirmative_fail in E3 as ->.
    + by apply question_of_fail in E2 as ->.
  - by apply is_answer_affirmative_fail in E0 as ->.
Qed.

(** Two nested calls for each level of the tree are enough. *)
Lemma play_q_node_enough_step h l q y n k :
  h !! l = Some (QNode q (Some y) (Some n)) ->
  (forall fuel b i o,
     k <= fuel ->
     (play_node fuel l (Some y) b (World i o h)).2 <> Fail OutOfFuel) ->
  (forall fuel b i o,
     k <= fuel ->
     (play_node fuel l (Some n) b (World i o h)).2 <> Fail OutOfFuel) ->
  forall fuel i o,
    S k <= fuel ->
    (play_q_node fuel l (World i o h)).2 <> Fail OutOfFuel.
Proof.
  intros Hl Hy Hn [|fuel] i o Hfuel; [lia|].
  rewrite play_q_node_unfold.
  erewrite bind_run by (by eapply getitem_Q_run).
  unfold affirmative_answer, get_one_word_answer. run.
  destruct (is_answer_affirmative _) as [[]|f] eqn:E.
  - erewrite bind_run by (by eapply getitem_Y_run). apply Hy. lia.
  - erewrite bind_run by (by eapply getitem_N_run). apply Hn. lia.
  - by apply is_answer_affirmative_fail in E as ->.
Qed.

Lemma play_node_enough h c t :
  represents h c t ->
  forall fuel p pq y n b i o,
    h !! p = Some (QNode pq y n) ->
    2 * height t - 1 <= fuel ->
    (play_node fuel p (Some c) b (World i o h)).2 <> Fail OutOfFuel.
Proof.
  induction 1 as [c a Hc|c q cy cn ty tn Hc Hq _ IHy _ IHn];
    intros [|fuel] p pq y n b i o Hp Hfuel; cbn [height] in Hfuel; try lia;
    rewrite play_node_unfold; cbv iota beta.
  - erewrite bind_run by (by eapply get_Q_truthy_guess). cbv iota beta.
    by eapply (play_g_node_has_fuel p c b a pq y n (World i o h)).
  - erewrite bind_run by (by eapply get_Q_truthy_question). cbv iota beta.
    pose proof (height_pos ty). pose proof (height_pos tn).
    eapply (play_q_node_enough_step h c q cy cn
              (2 * Nat.max (height ty) (height tn) - 1)); [done| | |lia].
    + intros. eapply IHy; [done|lia].
    + intros. eapply IHn; [done|lia].
Qed.

Lemma play_q_node_enough h l q ty tn fuel i o :
  represents h l (Question q ty tn) ->
  2 * height (Question q ty tn) <= fuel ->
  (play_q_node fuel l (World i o h)).2 <> Fail OutOfFuel.
Proof.
  inversion 1 as [|? ? y n ? ? Hl Hq Hy Hn]; subst. cbn [height]. intros Hfuel.
  pose proof (height_pos ty). pose proof (height_pos tn).
  eapply (play_q_node_enough_step h l q y n
            (2 * Nat.max (height ty) (height tn) - 1)); [done| | |lia].
  - intros. eapply play_node_enough; [done..|lia].
  - intros. eapply play_node_enough; [done..|lia].
Qed.

(** The result of a round is the one of the walk with any budget of at
    least two nested calls for each level of the tree. *)
Lemma play_game_depth h l q ty tn i o fuel :
  represents h l (Question q ty tn) ->
  2 * height (Question q ty tn) <= fuel ->
  play_q_node fuel l (World i o h) = play_game l (World i o h).
Proof.
  intros Hrep Hfuel. unfold play_game.
  set (w := World i o h). set (t := Question q ty tn) in *.
  assert (Ht : (play_q_node (2 * height t) l w).2 <> Fail OutOfFuel)
    by (by eapply play_q_node_enough).
  assert (Hp : (play_q_node (play_fuel w) l w).2 <> Fail OutOfFuel).
  { pose proof (play_game_post l w) as Hpost. unfold play_game in Hpost.
    destruct (play_q_node (play_fuel w) l w) as [w' [[]|f]]; [done|].
    cbn [snd]. intros [= ->]. destruct Hpost as [Hpost _]. by apply Hpost. }
  rewrite (proj1 (play_mono _) l w fuel Ht Hfuel).
  destruct (Nat.le_ge_cases (2 * height t) (play_fuel w)) as [Hle|Hle].
  - by rewrite (proj1 (play_mono _) l w (play_fuel w) Ht Hle).
  - by rewrite <- (proj1 (play_mono _) l w (2 * height t) Hp Hle).
Qed.

Lemma tree_within_mono k k' h : k <= k' -> tree_within k h -> tree_within k' h.
Proof. intros Hle (ty & tn & Hrep & Hh). exists ty, tn. split; [done|lia]. Qed.

(** A round makes the tree at most one level higher. *)
Lemma tree_within_round k w :
  tree_within k (heap w) ->
  tree_within (S k) (heap (play_game q_node_root w).1).
Proof.
  intros (ty & tn & Hrep & Hh).
  pose proof (play_game_post q_node_root w) as Hpost.
  destruct (play_game q_node_root w) as [w' [[]|f]]; cbn [heap fst] in *.
  - destruct Hpost as [-> |Hgrown]; [exists ty, tn; split; [done|lia]|].
    destruct Hgrown as (p & pq & y & n & b & g & old & a & q & nb
                        & _ & Hp & Hslot & Hg & Hq & ->).
    destruct (represents_grow (heap w) p g b nb a q pq y n old _ _
                Hp Hslot Hg Hq Hrep)
      as (t' & Hrep' & Hh' & ty' & tn' & ->).
    exists ty', tn'. split; [done|lia].
  - destruct Hpost as (_ & ext & ->). exists ty, tn.
    split; [by apply represents_ext|lia].
Qed.

(** Every turn of the loop reads a line and adds at most one level. *)
Lemma main_loop_height fuel :
  forall w k,
    tree_within k (heap w) ->
    tree_within (k + length (stdin w)) (heap (main_loop fuel w).1).
Proof.
  induction fuel as [|fuel IH]; intros w k Hk.
  { eapply tree_within_mono; [|exact Hk]. lia. }
  rewrite main_loop_unfold. unfold get_one_word_answer. run.
  destruct (is_answer_affirmative _) as [b|f] eqn:E; cbv iota beta;
    [|eapply tree_within_mono; [|exact Hk]; lia].
  pose proof (affirmative_reads_line w b E) as Hlen.
  destruct b.
  - set (w1 := World _ _ _).
    pose proof (tree_within_round k w1 Hk) as Hk'.
    assert (Hs : length (stdin (play_game q_node_root w1).1)
                 <= length (tl (stdin w))).
    { destruct Hk as (ty & tn & Hrep & _).
      destruct (play_game_safe (heap w) q_node_root _ ty tn
                  (tl (stdin w)) ((stdout w ++ [""])
                                  ++ ["Are you thinking of an animal?"]) Hrep)
        as [Hs _].
      by apply suffix_length in Hs. }
    destruct (play_game q_node_root w1) as [w' [[]|f]] eqn:Hplay;
      cbn [fst snd] in *.
    + rewrite (bind_run _ _ _ _ _ Hplay).
      eapply tree_within_mono; [|by apply IH]. lia.
    + rewrite (bind_fail _ _ _ _ _ Hplay).
      eapply tree_within_mono; [|exact Hk']. lia.
  - destruct (is_answer_tree_after_affirmative _ _ E) as [t ->].
    cbv iota beta. destruct t.
    + run. unfold print_root_tree.
      destruct (print_game_tree_only_prints
                  (length (heap w)) (Some q_node_root) 1 (heap w))
        as (lines & r & Hrun).
      cbn [heap]. destruct r as [[]|f].
      * erewrite bind_run by (apply Hrun).
        eapply tree_within_mono; [|by apply IH]. cbn [stdin]. lia.
      * erewrite bind_fail by (apply Hrun).
        eapply tree_within_mono; [|exact Hk]. lia.
    + eapply tree_within_mono; [|exact Hk]. lia.
Qed.

End Depth.

(** ** The tree, the rounds and the shell together *)

(** X2: on a store that holds a finite tree under [l], with fuel for the
    levels of the tree, [print_game_tree] returns, changes neither the
    store nor the input, and prints the pre-order trace of the tree: two
    lines for every question and one for every guess, every guess of the
    tree among them. *)
Theorem print_game_tree_prints_trace (h : list node) (l : loc) (t : tree)
    (fuel : nat) (level : Z) (i o : list string) :
  represents h l t ->
  height t <= fuel ->
  print_game_tree fuel (Some l) level (World i o h)
  = (World i (o ++ trace t level) h, Ok tt)
  /\ length (trace t level) = 2 * questions t + length (guesses t)
  /\ forall a, a ∈ guesses t ->
       exists k : nat,
         (get_indent_str (level + Z.of_nat k) +:+ "Guess: " +:+ a)
         ∈ trace t level.
Proof.
  intros Hrep Hfuel. split; [by apply print_game_tree_represented|].
  split; [apply trace_length|]. intros a. apply trace_guesses.
Qed.

Lemma print_game_tree_prints_trace_witness :
  let h := [ GNode "a fish"; GNode "a bird";
             QNode "Does it swim?" (Some 0) (Some 4);
             GNode "a dog"; QNode "Does it bark?" (Some 3) (Some 1) ] in
  let t := Question "Does it swim?" (Guess "a fish")
             (Question "Does it bark?" (Guess "a dog") (Guess "a bird")) in
  represents h 2 t
  /\ height t <= 3
  /\ print_game_tree 3 (Some 2) 1 (World [] [] h)
     = (World [] ([] ++ trace t 1) h, Ok tt)
  /\ length (trace t 1) = 2 * questions t + length (guesses t)
  /\ forall a, a ∈ guesses t ->
       exists k : nat,
         (get_indent_str (1 + Z.of_nat k) +:+ "Guess: " +:+ a) ∈ trace t 1.
Proof.
  cbv zeta.
  assert (Hrep : represents
            [ GNode "a fish"; GNode "a bird";
              QNode "Does it swim?" (Some 0) (Some 4);
              GNode "a dog"; QNode "Does it bark?" (Some 3) (Some 1) ] 2
            (Question "Does it swim?" (Guess "a fish")
               (Question "Does it bark?" (Guess "a dog") (Guess "a bird")))).
  { eapply represents_question; [reflexivity|done| |].
    - by apply represents_guess.
    - eapply represents_question; [reflexivity|done|..];
        by apply represents_guess. }
  split; [exact Hrep|]. split; [cbn; lia|].
  apply (print_game_tree_prints_trace _ 2 _ 3 1 [] [] Hrep). cbn. lia.
Defined.

(** X3: a round played on a store that holds a finite tree of at most
    400 levels under a question dictionary returns or raises [IndexError],
    nothing else: no [KeyError], no [AttributeError], no dangling
    reference.  What is left of the input is a suffix of the input.  The
    walk never nests more than two calls for each level: with a budget of
    800 nested calls of [play_q_node] and [play_node] it gives the very
    same result, which is how the bound on the height keeps the round
    within the interpreter's limit on the depth of recursion. *)
Theorem play_game_raises_only_index_error (h : list node) (l : loc)
    (q : string) (ty tn : tree) (i o : list string) :
  represents h l (Question q ty tn) ->
  height (Question q ty tn) <= 400 ->
  let res := play_game l (World i o h) in
  stdin res.1 `suffix_of` i
  /\ (res.2 = Ok tt \/ res.2 = Fail (Raise IndexError))
  /\ play_q_node 800 l (World i o h) = res.
Proof.
  intros Hrep Hh. cbv zeta.
  split; [|split]; [by eapply play_game_safe..|].
  eapply play_game_depth; [done|lia].
Qed.

Lemma play_game_raises_only_index_error_witness :
  represents initial_heap q_node_root
    (Question "Does it swim?" (Guess "a fish") (Guess "a bird"))
  /\ height (Question "Does it swim?" (Guess "a fish") (Guess "a bird")) <= 400
  /\ let res := play_game q_node_root (World ["yes"; ""] [] initial_heap) in
     stdin res.1 `suffix_of` ["yes"; ""]
     /\ (res.2 = Ok tt \/ res.2 = Fail (Raise IndexError))
     /\ play_q_node 800 q_node_root (World ["yes"; ""] [] initial_heap) = res.
Proof.
  assert (Hrep : represents initial_heap q_node_root
            (Question "Does it swim?" (Guess "a fish") (Guess "a bird"))).
  { eapply represents_question; [reflexivity|done|..];
      by apply represents_guess. }
  assert (Hh : height (Question "Does it swim?" (Guess "a fish")
                         (Guess "a bird")) <= 400) by (cbn; lia).
  split; [exact Hrep|]. split; [exact Hh|].
  apply (play_game_raises_only_index_error initial_heap q_node_root
           "Does it swim?" (Guess "a fish") (Guess "a bird")
           ["yes"; ""] [] Hrep Hh).
Defined.

Lemma session_height rounds :
  forall w k,
    (exists ty tn,
       represents (heap w) q_node_root (Question "Does it swim?" ty tn)
       /\ height (Question "Does it swim?" ty tn) <= k) ->
    exists ty tn,
      represents (heap (session rounds w)) q_node_root
        (Question "Does it swim?" ty tn)
      /\ height (Question "Does it swim?" ty tn) <= k + length rounds.
Proof.
  induction rounds as [|input rounds IH]; intros w k (ty & tn & Hrep & Hh).
  { exists ty, tn. split; [done|]. cbn [length]. lia. }
  cbn [session length].
  pose proof (play_game_post q_node_root (World input (stdout w) (heap w)))
    as Hpost.
  destruct (play_game q_node_root _) as [w' [[]|f]]; cbn [heap] in Hpost.
  - replace (k + S (length rounds)) with (S k + length rounds) by lia.
    apply IH. destruct Hpost as [-> |Hgrown].
    + exists ty, tn. split; [done|lia].
    + destruct Hgrown as (p & pq & y & n & b & g & old & a & q & nb
                          & _ & Hp & Hslot & Hg & Hq & ->).
      destruct (represents_grow (heap w) p g b nb a q pq y n old _ _
                  Hp Hslot Hg Hq Hrep)
        as (t' & Hrep' & Hh' & ty' & tn' & ->).
      exists ty', tn'. split; [done|lia].
  - destruct Hpost as (_ & ext & ->). exists ty, tn.
    split; [by apply represents_ext|lia].
Qed.

(** X4: after any rounds from the seed tree the store under the root is a
    finite binary tree (no cycle, every leaf a guess, every question with
    two subtrees) whose root asks "Does it swim?", and each round has made
    it at most one level higher: after [k] rounds no guess is more than
    [k + 1] questions away. *)
Theorem session_tree_finite (rounds : list (list string)) (input : list string) :
  exists ty tn,
    represents (heap (session rounds (initial_world input))) q_node_root
      (Question "Does it swim?" ty tn)
    /\ height (Question "Does it swim?" ty tn) <= 2 + length rounds.
Proof.
  apply session_height.
  exists (Guess "a fish"), (Guess "a bird"). split; [|cbn; lia].
  eapply represents_question; [reflexivity|done|..]; by apply represents_guess.
Qed.

(** X5: the whole script, on every input of at most 400 lines: it ends
    either normally, and then the last line printed is "Goodbye for now!",
    or with [IndexError] from an empty answer (a blank line or the end of
    the input); it never ends any other way.  The store it leaves holds a
    finite tree under the root question "Does it swim?"; every line read
    by the loop adds at most one level, so the tree has at most 402
    levels, which is what keeps the rounds and the printing of the tree
    within the interpreter's limit on the depth of recursion. *)
Theorem main_ends_with_goodbye_or_index_error (input : list string) :
  length input <= 400 ->
  let res := main (initial_world input) in
  (exists ty tn,
     represents (heap res.1) q_node_root (Question "Does it swim?" ty tn)
     /\ height (Question "Does it swim?" ty tn) <= 402)
  /\ (res.2 = Ok tt /\ last (stdout res.1) = Some "Goodbye for now!"
      \/ res.2 = Fail (Raise IndexError)).
Proof.
  intros Hlen. cbv zeta. unfold main.
  destruct (banner_run (initial_world input)) as [lines Hb].
  rewrite (bind_run _ _ _ _ _ Hb).
  set (w1 := World _ _ _).
  destruct (main_loop_safe (S (length (stdin w1))) w1) as [_ Hres].
  { apply shell_inv_initial. }
  { lia. }
  split; [|exact Hres].
  assert (Hk : tree_within 2 (heap w1)).
  { exists (Guess "a fish"), (Guess "a bird"). split; [|cbn; lia].
    eapply represents_question; [reflexivity|done|..];
      by apply represents_guess. }
  apply (main_loop_height (S (length (stdin w1))) w1 2) in Hk.
  eapply tree_within_mono in Hk; [exact Hk|].
  subst w1. cbn [stdin initial_world]. lia.
Qed.

Lemma main_ends_with_goodbye_or_index_error_witness :
  let input := ["yes"; "no"; "no"; "A Dog"; "does it bark"; "y"; "tree";
                "quit"] in
  length input <= 400
  /\ (main (initial_world input)).2 = Ok tt
  /\ let res := main (initial_world input) in
     (exists ty tn,
        represents (heap res.1) q_node_root (Question "Does it swim?" ty tn)
        /\ height (Question "Does it swim?" ty tn) <= 402)
     /\ (res.2 = Ok tt /\ last (stdout res.1) = Some "Goodbye for now!"
         \/ res.2 = Fail (Raise IndexError)).
Proof.
  cbv zeta. split; [cbn; lia|]. split; [reflexivity|].
  apply (main_ends_with_goodbye_or_index_error
           ["yes"; "no"; "no"; "A Dog"; "does it bark"; "y"; "tree"; "quit"]).
  cbn; lia.
Defined.



(** The same on the seed tree, with the lines written out. *)
Lemma play_game_learns_dog :
  play_game q_node_root
    (World ["no"; "yes"; "yes"] []
       (heap (play_game q_node_root
                (initial_world ["no"; "no"; "a dog"; "Does it bark?"; "yes"])).1))
  = (World []
       ["Does it swim?"; "Does it bark?"; "Is it a dog?";
        "Great! Try another animal!"]
       [ GNode "a fish"; GNode "a bird";
         QNode "Does it swim?" (Some 0) (Some 4);
         GNode "a dog"; QNode "Does it bark?" (Some 3) (Some 1) ], Ok tt).
Proof. reflexivity. Qed.

(** X9: nothing learned is lost.  A guess dictionary that is in the tree
    under the root stays in it, with its animal, through any further
    rounds, whether they return or fail. *)
Theorem session_keeps_guesses (rounds : list (list string)) (w : world)
    (g : loc) (a : string) :
  leaf (heap w) q_node_root g a ->
  leaf (heap (session rounds w)) q_node_root g a.
Proof.
  apply (session_ind (fun h => leaf h q_node_root g a)).
  - intros h ext [Hr Hl]. split; [by apply reach_ext|].
    by apply lookup_app_l_Some.
  - intros h h' [Hr Hl]
      (p & pq & y & n & b & g0 & old & a0 & q & nb
       & _ & Hp & Hslot & Hg & _ & ->).
    split; [eapply grow_reach; eauto|by eapply grow_keeps_guess].
Qed.

Lemma session_keeps_guesses_witness :
  leaf (heap (initial_world [])) q_node_root g_node_fish "a fish"
  /\ leaf (heap (session [["no"; "no"; "a dog"; "Does it bark?"; "yes"];
                          ["yes"; "no"; "a shark"; ""]]
                   (initial_world [])))
       q_node_root g_node_fish "a fish".
Proof.
  assert (H : leaf (heap (initial_world [])) q_node_root g_node_fish "a fish").
  { split; [|reflexivity]. apply rtc_once.
    exists "Does it swim?", (Some 0), (Some 1). split; [reflexivity|by left]. }
  split; [exact H|].
  apply (session_keeps_guesses _ (initial_world []) g_node_fish "a fish" H).
Defined.

(** X10: dictionaries are never rewritten.  Through any rounds a guess
    dictionary keeps its animal and a question dictionary keeps its
    question; only the slots of question dictionaries are assigned. *)
Theorem session_keeps_texts (rounds : list (list string)) (w : world)
    (l : loc) (nd : node) :
  heap w !! l = Some nd ->
  match nd with
  | GNode a => heap (session rounds w) !! l = Some (GNode a)
  | QNode q _ _ =>
      exists y' n', heap (session rounds w) !! l = Some (QNode q y' n')
  end.
Proof.
  intros Hl.
  apply (session_ind
           (fun h => match nd with
                     | GNode a => h !! l = Some (GNode a)
                     | QNode q _ _ =>
                         exists y' n', h !! l = Some (QNode q y' n')
                     end)).
  - intros h ext. destruct nd as [q y n|a].
    + intros (y' & n' & H). exists y', n'. by apply lookup_app_l_Some.
    + apply lookup_app_l_Some.
  - intros h h' H
      (p & pq & y & n & b & g0 & old & a0 & q & nb
       & _ & Hp & _ & _ & _ & ->).
    destruct nd as [q0 y0 n0|a].
    + destruct H as (y' & n' & H). by eapply grow_keeps_question.
    + by eapply grow_keeps_guess.
  - destruct nd; eauto.
Qed.

Lemma session_keeps_texts_witness :
  heap (initial_world []) !! q_node_root
  = Some (QNode "Does it swim?" (Some 0) (Some 1))
  /\ exists y' n',
       heap (session [["no"; "no"; "a dog"; "Does it bark?"; "yes"]]
               (initial_world [])) !! q_node_root
       = Some (QNode "Does it swim?" y' n').
Proof.
  split; [reflexivity|].
  apply (session_keeps_texts _ (initial_world []) q_node_root
           (QNode "Does it swim?" (Some 0) (Some 1))).
  reflexivity.
Defined.
